(** * Side-input materialisation (sdks/go/pkg/beam/core/runtime/exec/input.go)

    A shallow embedding of the reusable side-input values of the Go SDK
    harness: the input registry, the sequential iterator [iterValue], the
    re-iterable factory [reIterValue], the fixed value and the keyed multimap
    accessor [multiMapValue], together with the properties the design
    document states about them. *)

From stdpp Require Import gmap strings list fin_maps.
From Stdlib Require Import ZArith.

#[local] Set Warnings "-register-all".

Local Open Scope Z_scope.
Local Open Scope nat_scope.

(** ** Go's [reflect.Type] *)

(** The fragment of Go types the file handles: scalars, the named type
    [typex.EventTime], pointers and function types. *)
Inductive rtype : Type :=
  | TBool
  | TInt
  | TString
  | TEventTime
  | TPtr (elem : rtype)
  | TFunc (ins outs : list rtype).

(** [typex.EventTimeType] *)
Definition EventTimeType : rtype := TEventTime.

Fixpoint rtype_to_tree (t : rtype) : gen_tree nat :=
  match t with
  | TBool => GenLeaf 0
  | TInt => GenLeaf 1
  | TString => GenLeaf 2
  | TEventTime => GenLeaf 3
  | TPtr e => GenNode 0 [rtype_to_tree e]
  | TFunc ins outs =>
      GenNode 1 [GenNode 2 (rtype_to_tree <$> ins); GenNode 2 (rtype_to_tree <$> outs)]
  end.

Fixpoint tree_to_rtype (g : gen_tree nat) : option rtype :=
  match g with
  | GenLeaf 0 => Some TBool
  | GenLeaf 1 => Some TInt
  | GenLeaf 2 => Some TString
  | GenLeaf 3 => Some TEventTime
  | GenNode 0 [g'] => TPtr <$> tree_to_rtype g'
  | GenNode 1 [GenNode 2 gi; GenNode 2 go] =>
      ins ← mapM tree_to_rtype gi;
      outs ← mapM tree_to_rtype go;
      Some (TFunc ins outs)
  | _ => None
  end.

#[global] Instance rtype_eq_dec : EqDecision rtype.
Proof.
  unfold EqDecision, Decision. fix IH 1.
  intros x y. decide equality; apply (list_eq_dec (dec := IH)).
Defined.

#[global] Instance rtype_countable : Countable rtype.
Proof.
  refine (inj_countable rtype_to_tree tree_to_rtype _).
  abstract (
    fix IH 1; intros [| | | |e|ins outs]; try reflexivity;
    [ simpl; by rewrite IH
    | assert (Hm : ∀ l : list rtype,
                mapM tree_to_rtype (rtype_to_tree <$> l) = Some l)
        by (intros l; apply mapM_Some; induction l; constructor; auto);
      cbn [rtype_to_tree tree_to_rtype]; by rewrite !Hm ]).
Defined.

(** [reflect.Type.Out(0)]: the first result type of a function type; the
    reflect package panics for anything else. *)
Definition Out0 (t : rtype) : option rtype :=
  match t with
  | TFunc _ (o :: _) => Some o
  | _ => None
  end.

(** ** Errors, values and element records *)

Inductive error : Type :=
  | EOF                                  (* io.EOF *)
  | ErrorString (msg : string)           (* any other error value *)
  | Wrap (cause : error) (msg : string). (* errors.Wrap(cause, msg) *)

#[global] Instance error_eq_dec : EqDecision error.
Proof. solve_decision. Defined.

(** Addresses of user variables (the targets of the out-parameters) and of
    the objects this package allocates. *)
Definition loc := nat.
Definition addr := nat.

(** A function made by [reflect.MakeFunc(t, recv.invoke)] is a method value
    bound to its receiver. *)
Inductive fnref : Type :=
  | FnIter (recv : addr)      (* iterValue.invoke *)
  | FnReIter (recv : addr)    (* reIterValue.invoke *)
  | FnMultiMap (recv : addr). (* multiMapValue.invoke *)

(** Go values as they flow through [interface{}] and [reflect.Value].  An
    argument or a result of a made function is a [reflect.Value] and is kept
    as the value it holds; [VReflect v] is such a [reflect.Value] handed on
    as a value of its own, as happens when one is passed for an
    [interface{}] parameter. *)
Inductive value : Type :=
  | VNil
  | VBool (b : bool)
  | VInt (z : Z)
  | VString (s : string)
  | VTime (ts : Z)                    (* typex.EventTime *)
  | VPtr (l : loc)                    (* pointer to a user variable *)
  | VFunc (t : rtype) (impl : fnref)  (* reflect.MakeFunc(t, impl) *)
  | VOpaque (id : nat)                (* a value made outside this package *)
  | VReflect (v : value).             (* a reflect.Value as an interface{} *)

#[global] Instance fnref_eq_dec : EqDecision fnref.
Proof. solve_decision. Defined.
#[global] Instance value_eq_dec : EqDecision value.
Proof. solve_decision. Defined.

(** [exec.FullValue], restricted to the fields the file reads. *)
Record FullValue : Type := mkFullValue {
  Elm : value;
  Elm2 : value;
  Timestamp : Z
}.

Inductive panic_value : Type :=
  | PanicString (msg : string)                     (* panic("...") *)
  | PanicfType (msg : string) (t : rtype)          (* panic(fmt.Sprintf("...: %v", t)) *)
  | PanicfArgs (msg : string) (args : list value)  (* panic(fmt.Sprintf("... %v", args)) *)
  | PanicError (e : error)                         (* panic(err) *)
  | PanicRuntime (msg : string).                   (* raised by the Go runtime or by reflect *)

Inductive outcome (A : Type) : Type :=
  | Ret (a : A)
  | Panicked (p : panic_value).
Arguments Ret {A} a.
Arguments Panicked {A} p.

(** ** The collaborators of the package

    Streams, the conversion routine, the signature analyser of [funcx], the
    side-input adapter and the registered input makers live outside the
    file.  They act on a state of their own, the [World]; a non-nil interface
    value of a collaborator is a handle into it.  A pair of results
    [(x, err)] is kept as Go returns it: both halves may be nil. *)
Class Collaborators : Type := {
  World : Type;
  (* ReStream and Stream *)
  ReStream : Type;
  Stream : Type;
  Open : ReStream → World → (option Stream * option error) * World;
  Read : Stream → World → (option FullValue * option error) * World;
  Close : Stream → World → option error * World;
  (* exec.Convert *)
  Convert : value → rtype → value;
  (* funcx *)
  IsReIter : rtype → bool;
  UnfoldIter : rtype → option (list rtype);
  UnfoldMultiMap : rtype → option (list rtype);
  (* SideInputAdapter, with the opaque handles handed through to it *)
  Ctx : Type;
  SideInputAdapter : Type;
  StateReader : Type;
  Window : Type;
  NewKeyedIterable :
    SideInputAdapter → Ctx → StateReader → Window → value → World →
    (option ReStream * option error) * World;
  (* registered makers and the ReusableInput implementations they build *)
  Maker : Type;
  Custom : Type;
  call_maker : Maker → option ReStream → World → Custom * World;
  custom_Init : Custom → World → option error * World;
  custom_Value : Custom → World → value;
  custom_Reset : Custom → World → option error * World
}.

Section Exec.
Context `{C : Collaborators}.

(** ** Objects and program state *)

Record reIterValue : Type := mkReIterValue {
  ri_t : rtype;
  ri_s : option ReStream;
  ri_fn : value
}.

Record iterValue : Type := mkIterValue {
  s : option ReStream;
  fn : value;
  types : list rtype;
  (* cur is the "current" stream, if any. *)
  cur : option Stream
}.

Record fixedValue : Type := mkFixedValue {
  val : value
}.

Record multiMapValue : Type := mkMultiMapValue {
  mm_t : rtype;
  keyType : rtype;
  mm_ctx : Ctx;
  adapter : SideInputAdapter;
  reader : StateReader;
  w : Window;
  mm_fn : value
}.

Inductive object : Type :=
  | ObjReIter (v : reIterValue)
  | ObjIter (v : iterValue)
  | ObjFixed (v : fixedValue)
  | ObjMultiMap (v : multiMapValue).

(** A [ReusableInput] interface value: the dynamic type and the pointer. *)
Inductive ReusableInput : Type :=
  | RIReIter (a : addr)
  | RIIter (a : addr)
  | RIFixed (a : addr)
  | RIMultiMap (a : addr)
  | RICustom (c : Custom).

(** The package-level map [inputs] (its mutex serialises the accesses, which
    are sequential here), the objects allocated so far, the user variables,
    what they hold and the types they are declared with, and the
    collaborators' state. *)
Record State : Type := mkState {
  world : World;
  inputs : gmap rtype Maker;
  heap : list object;
  vars : gmap loc value;
  decls : gmap loc rtype
}.

(** ** Computations: state passing, with panics *)

Definition M (A : Type) : Type := State → outcome A * State.

Definition ret {A} (a : A) : M A := λ st, (Ret a, st).

Definition bind {A B} (m : M A) (k : A → M B) : M B :=
  λ st, match m st with
        | (Ret a, st') => k a st'
        | (Panicked p, st') => (Panicked p, st')
        end.

Definition panic {A} (p : panic_value) : M A := λ st, (Panicked p, st).

End Exec.

Notation "x <- m ;; k" := (bind m (λ x, k))
  (at level 100, m at next level, right associativity).
Notation "m ;;; k" := (bind m (λ _, k))
  (at level 100, right associativity).

Section Ops.
Context `{C : Collaborators}.

Definition set_world (w' : World) (st : State) : State :=
  mkState w' (inputs st) (heap st) (vars st) (decls st).
Definition set_inputs (m : gmap rtype Maker) (st : State) : State :=
  mkState (world st) m (heap st) (vars st) (decls st).
Definition set_heap (h : list object) (st : State) : State :=
  mkState (world st) (inputs st) h (vars st) (decls st).
Definition set_vars (v : gmap loc value) (st : State) : State :=
  mkState (world st) (inputs st) (heap st) v (decls st).

(** A call into a collaborator. *)
Definition ext {A} (f : World → A * World) : M A :=
  λ st, let '(a, w') := f (world st) in (Ret a, set_world w' st).

Definition nil_dereference : panic_value :=
  PanicRuntime "invalid memory address or nil pointer dereference".
Definition index_out_of_range : panic_value :=
  PanicRuntime "index out of range".

(** [&T{...}]: a fresh object, at the next free address. *)
Definition alloc (o : object) : M addr :=
  λ st, (Ret (length (heap st)), set_heap (heap st ++ [o]) st).

Definition load (a : addr) : M object :=
  λ st, match heap st !! a with
        | Some o => (Ret o, st)
        | None => (Panicked nil_dereference, st)
        end.

Definition store (a : addr) (o : object) : M unit :=
  λ st, (Ret tt, set_heap (<[a:=o]> (heap st)) st).

Definition load_iter (a : addr) : M iterValue :=
  o <- load a ;;
  match o with ObjIter v => ret v | _ => panic nil_dereference end.

Definition load_reiter (a : addr) : M reIterValue :=
  o <- load a ;;
  match o with ObjReIter v => ret v | _ => panic nil_dereference end.

Definition load_fixed (a : addr) : M fixedValue :=
  o <- load a ;;
  match o with ObjFixed v => ret v | _ => panic nil_dereference end.

Definition load_multimap (a : addr) : M multiMapValue :=
  o <- load a ;;
  match o with ObjMultiMap v => ret v | _ => panic nil_dereference end.

(** [t.Out(0)] *)
Definition out0 (t : rtype) : M rtype :=
  match Out0 t with
  | Some o => ret o
  | None => panic (PanicRuntime "reflect: Out of non-func type or index out of range")
  end.

(** ** The registry *)

Definition RegisterInput (t : rtype) (maker : Maker) : M unit :=
  λ st, (Ret tt, set_inputs (<[t:=maker]> (inputs st)) st).

Definition IsInputRegistered (t : rtype) : M bool :=
  λ st, (Ret (bool_decide (is_Some (inputs st !! t))), st).

(** ** iterValue *)

(** [maker, exists := inputs[t]] *)
Definition lookup_input (t : rtype) : M (option Maker) :=
  λ st, (Ret (inputs st !! t), st).

Definition makeIter (t : rtype) (s : option ReStream) : M ReusableInput :=
  found <- lookup_input t ;;
  match found with
  | Some maker => c <- ext (call_maker maker s) ;; ret (RICustom c)
  | None =>
      (* If no specialized implementation is available, we use the (slower)
         reflection-based one. *)
      match UnfoldIter t with
      | None => panic (PanicfType "illegal iter type: " t)
      | Some types =>
          a <- alloc (ObjIter (mkIterValue s VNil types None)) ;;
          store a (ObjIter (mkIterValue s (VFunc t (FnIter a)) types None)) ;;;
          ret (RIIter a)
      end
  end.

Definition iterValue_Init (a : addr) : M (option error) :=
  v <- load_iter a ;;
  match s v with
  | None => panic nil_dereference
  | Some rs =>
      r <- ext (Open rs) ;;
      match r.2 with
      | Some err => ret (Some err)
      | None =>
          store a (ObjIter (mkIterValue (s v) (fn v) (types v) r.1)) ;;;
          ret None
      end
  end.

Definition iterValue_Value (a : addr) : M value :=
  v <- load_iter a ;;
  ret (fn v).

Definition iterValue_Reset (a : addr) : M (option error) :=
  v <- load_iter a ;;
  match cur v with
  | None => panic (PanicString "Init() not called")
  | Some c =>
      r <- ext (Close c) ;;
      match r with
      | Some err => ret (Some err)
      | None =>
          store a (ObjIter (mkIterValue (s v) (fn v) (types v) None)) ;;;
          ret None
      end
  end.

(** [elm.f] on the record pointer a read gave back. *)
Definition field {A} (elm : option FullValue) (f : FullValue → A) : M A :=
  match elm with
  | Some e => ret (f e)
  | None => panic nil_dereference
  end.

(** [args[i]] *)
Definition index (args : list value) (i : nat) : M value :=
  match args !! i with
  | Some a => ret a
  | None => panic index_out_of_range
  end.

(** The type a [reflect.Value] holding [v] has, among the types of the
    fragment; [d] gives the types of the variables pointers point to.  The
    nil interface makes the zero [reflect.Value], which has no type, and the
    types of values from elsewhere are none of the fragment. *)
Definition type_of (d : gmap loc rtype) (v : value) : option rtype :=
  match v with
  | VNil => None
  | VBool _ => Some TBool
  | VInt _ => Some TInt
  | VString _ => Some TString
  | VTime _ => Some TEventTime
  | VPtr l => TPtr <$> d !! l
  | VFunc t _ => Some t
  | VOpaque _ => None
  | VReflect _ => None
  end.

Definition set_on_zero_value : panic_value :=
  PanicRuntime "reflect: call of reflect.Value.Set on zero Value".
Definition set_of_zero_value : panic_value :=
  PanicRuntime "reflect: call of reflect.flag.mustBeExported on zero Value".
Definition not_assignable : panic_value :=
  PanicRuntime "reflect.Set: value is not assignable to the type of the variable".

(** [arg.Elem().Set(v)]: store through an out-parameter.  [Elem] wants a
    pointer; [Set] wants the pointer to point to a variable, [v] to hold a
    value, and the type of that value to be assignable to the type of the
    variable, which among the types of the fragment is to be that type. *)
Definition assign (arg : value) (v : value) : M unit :=
  match arg with
  | VPtr l =>
      λ st,
        match decls st !! l with
        | None => (Panicked set_on_zero_value, st)
        | Some t =>
            match v with
            | VNil => (Panicked set_of_zero_value, st)
            | _ =>
                if decide (type_of (decls st) v = Some t)
                then (Ret tt, set_vars (<[l:=v]> (vars st)) st)
                else (Panicked not_assignable, st)
            end
        end
  | _ => panic (PanicRuntime "reflect: call of reflect.Value.Elem on non-pointer Value")
  end.

(** The [switch] of the loop body: the value for a slot of type [t], and
    [isKey] afterwards. *)
Definition slot_value (elm : option FullValue) (isKey : bool) (t : rtype)
  : M (value * bool) :=
  if decide (t = EventTimeType) then
    x <- field elm Timestamp ;; ret (VTime x, isKey)
  else if isKey then
    x <- field elm Elm ;; ret (Convert x t, false)
  else
    x <- field elm Elm2 ;; ret (Convert x t, isKey).

(** [for i, t := range v.types { ... }], from index [i] on. *)
Fixpoint fill (elm : option FullValue) (args : list value) (i : nat)
    (isKey : bool) (ts : list rtype) : M unit :=
  match ts with
  | [] => ret tt
  | t :: ts' =>
      r <- slot_value elm isKey t ;;
      arg <- index args i ;;
      assign arg r.1 ;;;
      fill elm args (S i) r.2 ts'
  end.

Definition iterValue_invoke (a : addr) (args : list value) : M (list value) :=
  v <- load_iter a ;;
  match cur v with
  | None => panic (PanicString "Init() not called")
  | Some c =>
      r <- ext (Read c) ;;
      match r.2 with
      | Some err =>
          if decide (err = EOF) then ret [VBool false]
          else panic (PanicError (Wrap err "broken stream"))
      | None =>
          fill r.1 args 0 true (types v) ;;;
          ret [VBool true]
      end
  end.

(** ** fixedValue *)

Definition fixedValue_Init (a : addr) : M (option error) := ret None.

Definition fixedValue_Value (a : addr) : M value :=
  v <- load_fixed a ;;
  ret (val v).

Definition fixedValue_Reset (a : addr) : M (option error) := ret None.

(** ** reIterValue *)

Definition makeReIter (t : rtype) (s : option ReStream) : M ReusableInput :=
  if negb (IsReIter t) then panic (PanicfType "illegal re-iter type: " t)
  else
    a <- alloc (ObjReIter (mkReIterValue t s VNil)) ;;
    store a (ObjReIter (mkReIterValue t s (VFunc t (FnReIter a)))) ;;;
    ret (RIReIter a).

Definition reIterValue_Init (a : addr) : M (option error) := ret None.

Definition reIterValue_Value (a : addr) : M value :=
  v <- load_reiter a ;;
  ret (ri_fn v).

Definition reIterValue_Reset (a : addr) : M (option error) := ret None.

(** ** multiMapValue: construction and the trivial methods *)

Definition makeMultiMap (ctx : Ctx) (t : rtype) (adapter : SideInputAdapter)
    (reader : StateReader) (w : Window) : M ReusableInput :=
  match UnfoldMultiMap t with
  | None => panic (PanicfType "illegal multimap type: " t)
  | Some types =>
      match types with
      | [] => panic index_out_of_range
      | kt :: _ =>
          a <- alloc (ObjMultiMap (mkMultiMapValue t kt ctx adapter reader w VNil)) ;;
          store a (ObjMultiMap
                     (mkMultiMapValue t kt ctx adapter reader w (VFunc t (FnMultiMap a)))) ;;;
          ret (RIMultiMap a)
      end
  end.

Definition multiMapValue_Init (a : addr) : M (option error) := ret None.

Definition multiMapValue_Value (a : addr) : M value :=
  v <- load_multimap a ;;
  ret (mm_fn v).

Definition multiMapValue_Reset (a : addr) : M (option error) := ret None.

(** ** Method calls through the [ReusableInput] interface *)

Definition Init (r : ReusableInput) : M (option error) :=
  match r with
  | RIReIter a => reIterValue_Init a
  | RIIter a => iterValue_Init a
  | RIFixed a => fixedValue_Init a
  | RIMultiMap a => multiMapValue_Init a
  | RICustom c => ext (custom_Init c)
  end.

Definition Value (r : ReusableInput) : M value :=
  match r with
  | RIReIter a => reIterValue_Value a
  | RIIter a => iterValue_Value a
  | RIFixed a => fixedValue_Value a
  | RIMultiMap a => multiMapValue_Value a
  | RICustom c => λ st, (Ret (custom_Value c (world st)), st)
  end.

Definition Reset (r : ReusableInput) : M (option error) :=
  match r with
  | RIReIter a => reIterValue_Reset a
  | RIIter a => iterValue_Reset a
  | RIFixed a => fixedValue_Reset a
  | RIMultiMap a => multiMapValue_Reset a
  | RICustom c => ext (custom_Reset c)
  end.

(** ** The callables of the factory and of the multimap *)

Definition reIterValue_invoke (a : addr) (args : list value) : M (list value) :=
  v <- load_reiter a ;;
  t <- out0 (ri_t v) ;;
  iter <- makeIter t (ri_s v) ;;
  Init iter ;;;
  f <- Value iter ;;
  ret [f].

Definition multiMapValue_invoke (a : addr) (args : list value) : M (list value) :=
  v <- load_multimap a ;;
  match args with
  | [arg] =>
      (* Convert is given args[0], a reflect.Value, and the adapter the
         reflect.Value of what Convert returns. *)
      let key := VReflect (Convert (VReflect arg) (keyType v)) in
      r <- ext (NewKeyedIterable (adapter v) (mm_ctx v) (reader v) (w v) key) ;;
      t <- out0 (mm_t v) ;;
      iter <- makeIter t r.1 ;;
      Init iter ;;;
      f <- Value iter ;;
      ret [f]
  | _ => panic (PanicfArgs "wanted one key value, got " args)
  end.

(** Calling a function value from user code. *)
Definition call (f : value) (args : list value) : M (list value) :=
  match f with
  | VFunc _ (FnIter a) => iterValue_invoke a args
  | VFunc _ (FnReIter a) => reIterValue_invoke a args
  | VFunc _ (FnMultiMap a) => multiMapValue_invoke a args
  | VNil => panic nil_dereference
  | _ => panic (PanicRuntime "call of a value that is not a function of this package")
  end.

(** [n] calls of [f] in a row with the same arguments: the results, up to
    and including a panic if one happens. *)
Fixpoint call_n (n : nat) (f : value) (args : list value)
  : State → list (outcome (list value)) * State :=
  λ st,
    match n with
    | 0 => ([], st)
    | S n' =>
        match call f args st with
        | (Ret r, st') =>
            let '(rs, st'') := call_n n' f args st' in (Ret r :: rs, st'')
        | (Panicked p, st') => ([Panicked p], st')
        end
    end.

End Ops.

(** ** Vocabulary of the properties *)

Section Properties.
Context `{C : Collaborators}.

(** The cursor [c] holds exactly the records [l]: read after read it hands
    them out in order and then signals the end of the stream. *)
Fixpoint delivers (c : Stream) (l : list FullValue) (wd : World) : Prop :=
  match l with
  | [] => ∃ x wd', Read c wd = ((x, Some EOF), wd')
  | e :: l' => ∃ wd', Read c wd = ((Some e, None), wd') ∧ delivers c l' wd'
  end.

(** The collaborators' state after [n] reads of [c]. *)
Fixpoint reads (n : nat) (c : Stream) (wd : World) : World :=
  match n with
  | 0 => wd
  | S n' => reads n' c (Read c wd).2
  end.

(** Reading one cursor leaves what the other cursors hold alone. *)
Definition independent_cursors : Prop :=
  ∀ c c' l wd, c ≠ c' → delivers c' l wd → delivers c' l (Read c wd).2.

(** A restartable stream over the records [l]: every opening succeeds with a
    cursor over all of [l] that is none of the cursors in use, and disturbs
    none of them. *)
Definition restartable (rs : ReStream) (l : list FullValue) : Prop :=
  ∀ wd, ∃ c wd',
    Open rs wd = ((Some c, None), wd') ∧ delivers c l wd' ∧
    ∀ c' l', delivers c' l' wd → c' ≠ c ∧ delivers c' l' wd'.

(** The field mapping as the design document words it: a slot of type
    event time receives the timestamp, the first slot that is not receives
    the primary value, every later one the secondary value, each converted
    to the slot's declared type. *)
Definition slot_spec (e : FullValue) (ts : list rtype) (i : nat) (t : rtype) : value :=
  if decide (t = EventTimeType) then VTime (Timestamp e)
  else if decide (Forall (λ t', t' = EventTimeType) (take i ts))
       then Convert (Elm e) t
       else Convert (Elm2 e) t.

Definition mapped (e : FullValue) (ts : list rtype) : list value :=
  imap (slot_spec e ts) ts.

(** The out-parameters [locs] point to variables declared with the slot
    types [ts], as the arguments of a function made for the iterator type
    do. *)
Definition declared (d : gmap loc rtype) (locs : list loc) (ts : list rtype) : Prop :=
  Forall2 (λ lo t, d !! lo = Some t) locs ts.

(** On the record [e] the conversion gives every slot a value of the type
    of the slot. *)
Definition conforms (d : gmap loc rtype) (ts : list rtype) (e : FullValue) : Prop :=
  Forall2 (λ x t, type_of d x = Some t) (mapped e ts) ts.

(** The assignments [*p = v], first to last. *)
Definition write_all (ws : list (loc * value)) (m : gmap loc value) : gmap loc value :=
  foldl (λ m' lv, <[lv.1:=lv.2]> m') m ws.

(** What user code sees of one step of [for f(&x, &y) { ... }]: the
    variables after a successful call, nothing at the end of the stream. *)
Definition observe (f : value) (locs : list loc)
  : M (option (list (option value))) :=
  r <- call f (VPtr <$> locs) ;;
  match r with
  | [VBool true] => λ st, (Ret (Some ((λ l, vars st !! l) <$> locs)), st)
  | [VBool false] => ret None
  | _ => panic (PanicRuntime "callable did not return a bool")
  end.

(** What a loop over records [l] with slot types [ts] is expected to see. *)
Definition seen (ts : list rtype) (l : list FullValue)
  : list (option (list (option value))) :=
  (λ e, Some (Some <$> mapped e ts)) <$> l.

(** Two callables driven in turns: [true] steps the first one, [false] the
    second; the observations of each, in order. *)
Fixpoint run_sched (sched : list bool) (f1 : value) (locs1 : list loc)
    (f2 : value) (locs2 : list loc)
  : M (list (option (list (option value))) * list (option (list (option value)))) :=
  match sched with
  | [] => ret ([], [])
  | true :: sched' =>
      o <- observe f1 locs1 ;;
      r <- run_sched sched' f1 locs1 f2 locs2 ;;
      ret (o :: r.1, r.2)
  | false :: sched' =>
      o <- observe f2 locs2 ;;
      r <- run_sched sched' f1 locs1 f2 locs2 ;;
      ret (r.1, o :: r.2)
  end.

(** [n] steps of a single callable. *)
Fixpoint pulls (n : nat) (f : value) (locs : list loc)
  : M (list (option (list (option value)))) :=
  match n with
  | 0 => ret []
  | S n' =>
      o <- observe f locs ;;
      r <- pulls n' f locs ;;
      ret (o :: r)
  end.

(** A run of registrations, first to last. *)
Fixpoint register_all (regs : list (rtype * Maker)) : M unit :=
  match regs with
  | [] => ret tt
  | (t, maker) :: regs' => RegisterInput t maker ;;; register_all regs'
  end.

(** Two objects that agree on what is fixed at construction: for an
    iterator everything but the cursor, for the other objects everything. *)
Definition same_shape (o o' : object) : Prop :=
  match o, o' with
  | ObjIter v, ObjIter v' => s v = s v' ∧ fn v = fn v' ∧ types v = types v'
  | _, _ => o = o'
  end.

(** [st'] comes after [st]: the registry is the same and every object of
    [st] is still there, at its address and with its shape. *)
Definition extends (st st' : State) : Prop :=
  inputs st' = inputs st ∧
  ∀ a o, heap st !! a = Some o → ∃ o', heap st' !! a = Some o' ∧ same_shape o o'.

(** An adapter that serves [stored] with streams of their own: the cursor a
    looked-up stream opens to is none of the cursors in use, and the lookup
    and the opening disturb none of them. *)
Definition serves_apart (ad : SideInputAdapter)
    (stored : Window → value → list FullValue) : Prop :=
  ∀ ctx rd win key wd, ∃ rs err wd1 c wd2,
    NewKeyedIterable ad ctx rd win key wd = ((Some rs, err), wd1) ∧
    Open rs wd1 = ((Some c, None), wd2) ∧
    delivers c (stored win key) wd2 ∧
    ∀ c' l', delivers c' l' wd → c' ≠ c ∧ delivers c' l' wd2.

(** The maker of the last registration for [t] in a run of registrations,
    [prev] if the run has none. *)
Fixpoint last_registered (regs : list (rtype * Maker)) (t : rtype)
    (prev : option Maker) : option Maker :=
  match regs with
  | [] => prev
  | (t', maker) :: regs' =>
      last_registered regs' t (if decide (t' = t) then Some maker else prev)
  end.

End Properties.

(** ** In-memory collaborators

    A buffer-backed stream in the manner of the package's fixed streams, a
    table-backed adapter and a signature analyser for the shapes
    [func(x *T, ..) bool], [func() func(x *T, ..) bool] and
    [func(k K) func(x *T, ..) bool].  They give the properties below concrete
    inputs to run on. *)

Record MemReStream : Type := mkMemReStream {
  buf : list FullValue;
  open_err : option error;   (* what Open fails with, if it does *)
  read_err : option error;   (* what ends the records, if not io.EOF *)
  close_err : option error   (* what Close gives back *)
}.

Record MemCursor : Type := mkMemCursor {
  rest : list FullValue;
  cursor_read_err : option error;
  cursor_close_err : option error
}.

Definition mem_Open (rs : MemReStream) (wd : list MemCursor)
  : (option nat * option error) * list MemCursor :=
  match open_err rs with
  | Some err => ((None, Some err), wd)
  | None =>
      ((Some (length wd), None),
       wd ++ [mkMemCursor (buf rs) (read_err rs) (close_err rs)])
  end.

Definition mem_Read (c : nat) (wd : list MemCursor)
  : (option FullValue * option error) * list MemCursor :=
  match wd !! c with
  | None => ((None, Some (ErrorString "no such stream")), wd)
  | Some cu =>
      match rest cu with
      | e :: r =>
          ((Some e, None),
           <[c:=mkMemCursor r (cursor_read_err cu) (cursor_close_err cu)]> wd)
      | [] => ((None, Some (default EOF (cursor_read_err cu))), wd)
      end
  end.

Definition mem_Close (c : nat) (wd : list MemCursor)
  : option error * list MemCursor :=
  match wd !! c with
  | None => (Some (ErrorString "no such stream"), wd)
  | Some cu => (cursor_close_err cu, wd)
  end.

(** Keyed state: the records stored under a window and a key. *)
Record MemAdapter : Type := mkMemAdapter {
  table : list ((nat * value) * list FullValue);
  fail : option error   (* what every lookup fails with, if set *)
}.

Fixpoint mem_stored (tb : list ((nat * value) * list FullValue))
    (win : nat) (key : value) : list FullValue :=
  match tb with
  | [] => []
  | (k, l) :: tb' => if decide (k = (win, key)) then l else mem_stored tb' win key
  end.

Definition mem_NewKeyedIterable (ad : MemAdapter) (ctx rd : unit) (win : nat)
    (key : value) (wd : list MemCursor)
  : (option MemReStream * option error) * list MemCursor :=
  match fail ad with
  | Some err => ((None, Some err), wd)
  | None => ((Some (mkMemReStream (mem_stored (table ad) win key) None None None), None), wd)
  end.

Definition mem_elem (p : rtype) : option rtype :=
  match p with
  | TPtr e => Some e
  | _ => None
  end.

Definition mem_UnfoldIter (t : rtype) : option (list rtype) :=
  match t with
  | TFunc (p :: ps) [TBool] => mapM mem_elem (p :: ps)
  | _ => None
  end.

Definition mem_IsReIter (t : rtype) : bool :=
  match t with
  | TFunc [] [o] => bool_decide (is_Some (mem_UnfoldIter o))
  | _ => false
  end.

Definition mem_UnfoldMultiMap (t : rtype) : option (list rtype) :=
  match t with
  | TFunc [k] [o] => (λ ts, k :: ts) <$> mem_UnfoldIter o
  | _ => None
  end.

(** Makers and the inputs they build are plain tags here. *)
Definition mem : Collaborators := {|
  World := list MemCursor;
  ReStream := MemReStream;
  Stream := nat;
  Open := mem_Open;
  Read := mem_Read;
  Close := mem_Close;
  Convert := λ v _, v;
  IsReIter := mem_IsReIter;
  UnfoldIter := mem_UnfoldIter;
  UnfoldMultiMap := mem_UnfoldMultiMap;
  Ctx := unit;
  SideInputAdapter := MemAdapter;
  StateReader := unit;
  Window := nat;
  NewKeyedIterable := mem_NewKeyedIterable;
  Maker := nat;
  Custom := nat;
  call_maker := λ m _ wd, (m, wd);
  custom_Init := λ _ wd, (None, wd);
  custom_Value := λ c _, VOpaque c;
  custom_Reset := λ _ wd, (None, wd)
|}.

(** Sample data: [func(t *typex.EventTime, k *int, v *string) bool],
    [func(k *int) bool] and three key/value records. *)
Definition iter_ekv : rtype := TFunc [TPtr TEventTime; TPtr TInt; TPtr TString] [TBool].
Definition iter_k : rtype := TFunc [TPtr TInt] [TBool].
Definition reiter_ekv : rtype := TFunc [] [iter_ekv].
Definition multimap_ekv : rtype := TFunc [TString] [iter_ekv].

Definition rec7 : FullValue := mkFullValue (VInt 7) (VString "x") 1000.
Definition rec8 : FullValue := mkFullValue (VInt 8) (VString "y") 2000.
Definition rec9 : FullValue := mkFullValue (VInt 9) (VString "z") 3000.

Definition three : MemReStream := mkMemReStream [rec7; rec8; rec9] None None None.

(** A stream whose second read fails, and one that does not close. *)
Definition broken : MemReStream :=
  mkMemReStream [rec7] None (Some (ErrorString "connection reset")) None.
Definition stuck : MemReStream :=
  mkMemReStream [rec7] None None (Some (ErrorString "close failed")).


(** A stream that does not open. *)
Definition unopenable : MemReStream :=
  mkMemReStream [rec7] (Some (ErrorString "no route")) None None.

(** Keyed state with two records under window 0 and key "a", and an adapter
    whose lookups fail. *)
Definition keyed : MemAdapter :=
  mkMemAdapter [((0, VString "a"), [rec7; rec8])] None.
Definition failing : MemAdapter :=
  mkMemAdapter [] (Some (ErrorString "state unavailable")).

(** The same two records, filed under the key "a" as a lookup through the
    multimap's callable hands it to the adapter. *)
Definition keyed_as_asked : MemAdapter :=
  mkMemAdapter [((0, VReflect (VReflect (VString "a"))), [rec7; rec8])] None.

(** User variables: two triples for the shape event time, int, string,
    and one more int. *)
Definition mem_decls : gmap loc rtype :=
  list_to_map [(10, TEventTime); (11, TInt); (12, TString);
               (20, TEventTime); (21, TInt); (22, TString); (30, TInt)].

(** No object, nothing registered, no cursor; the variables declared and
    not yet written. *)
Definition mem_empty : @State mem := mkState (C := mem) [] ∅ [] ∅ mem_decls.

(** The state after running [m] from the empty state. *)
Definition after {A} (m : @M mem A) : @State mem := (m mem_empty).2.

(** An iterator over [three] as makeIter leaves it, and after Init. *)
Definition fresh_iter : @State mem :=
  after (makeIter (C:=mem) iter_ekv (Some three)).
Definition open_iter : @State mem :=
  after (makeIter (C:=mem) iter_ekv (Some three) ;;; iterValue_Init 0).

(** The same iterator after three calls of its callable. *)
Definition exhausted_iter : @State mem :=
  let next := iterValue_invoke (C:=mem) 0 [VPtr 10; VPtr 11; VPtr 12] in
  after (makeIter (C:=mem) iter_ekv (Some three) ;;; iterValue_Init 0 ;;;
         next ;;; next ;;; next).

(** Iterators over [broken], read once, and over [stuck], both after Init. *)
Definition broken_iter : @State mem :=
  after (makeIter (C:=mem) iter_k (Some broken) ;;; iterValue_Init 0 ;;;
         iterValue_invoke 0 [VPtr 30]).
Definition stuck_iter : @State mem :=
  after (makeIter (C:=mem) iter_k (Some stuck) ;;; iterValue_Init 0).


(** An iterator and a factory over [unopenable], as built. *)
Definition unopened_iter : @State mem :=
  after (makeIter (C:=mem) iter_k (Some unopenable)).
Definition unopenable_reiter : @State mem :=
  after (makeReIter (C:=mem) reiter_ekv (Some unopenable)).

(** A factory over [three], and multimaps over [keyed] and [failing]. *)
Definition fresh_reiter : @State mem :=
  after (makeReIter (C:=mem) reiter_ekv (Some three)).
Definition keyed_multimap : @State mem :=
  after (makeMultiMap (C:=mem) tt multimap_ekv keyed tt 0).
Definition failing_multimap : @State mem :=
  after (makeMultiMap (C:=mem) tt multimap_ekv failing tt 0).

(** * Properties *)

Section Theorems.
Context `{C : Collaborators}.

Implicit Types (st : State) (a : addr) (v : iterValue) (c : Stream)
  (e : FullValue) (l : list FullValue) (locs : list loc) (ts : list rtype).

(** ** Computations *)

Lemma bind_ret {A B} (m : M A) (k : A → M B) st x st' :
  m st = (Ret x, st') → bind m k st = k x st'.
Proof. intros H. unfold bind. by rewrite H. Qed.

Lemma load_iter_at st a v :
  heap st !! a = Some (ObjIter v) → load_iter a st = (Ret v, st).
Proof. intros H. unfold load_iter, load, bind. by rewrite H. Qed.


Lemma Value_iter_at st a v :
  heap st !! a = Some (ObjIter v) → iterValue_Value a st = (Ret (fn v), st).
Proof.
  intros H. unfold iterValue_Value.
  by rewrite (bind_ret _ _ _ _ _ (load_iter_at _ _ _ H)).
Qed.

Lemma load_multimap_at st a (v : multiMapValue) :
  heap st !! a = Some (ObjMultiMap v) → load_multimap a st = (Ret v, st).
Proof. intros H. unfold load_multimap, load, bind. by rewrite H. Qed.

Lemma load_reiter_at st a (v : reIterValue) :
  heap st !! a = Some (ObjReIter v) → load_reiter a st = (Ret v, st).
Proof. intros H. unfold load_reiter, load, bind. by rewrite H. Qed.

Lemma out0_at st t o : Out0 t = Some o → out0 t st = (Ret o, st).
Proof. intros H. unfold out0. by rewrite H. Qed.

Lemma ext_at {A} (f : World → A * World) st x wd :
  f (world st) = (x, wd) → ext f st = (Ret x, set_world wd st).
Proof. intros H. unfold ext. by rewrite H. Qed.

(** ** The field mapping *)

Lemma write_all_snoc (ws : list (loc * value)) lo x (m : gmap loc value) :
  write_all (ws ++ [(lo, x)]) m = <[lo:=x]> (write_all ws m).
Proof. unfold write_all. by rewrite foldl_app. Qed.

Lemma mapped_length e ts : length (mapped e ts) = length ts.
Proof. unfold mapped. apply length_imap. Qed.

Lemma mapped_lookup e ts i t :
  ts !! i = Some t → mapped e ts !! i = Some (slot_spec e ts i t).
Proof. intros H. unfold mapped. by rewrite list_lookup_imap, H. Qed.

(** The loop's flag [isKey] says that no slot so far took the primary
    value, that is that all of them were event-time slots. *)
Lemma slot_value_spec e ts i t (isKey : bool) st :
  ts !! i = Some t →
  (isKey = true ↔ Forall (λ t', t' = EventTimeType) (take i ts)) →
  ∃ isKey' : bool,
    slot_value (Some e) isKey t st = (Ret (slot_spec e ts i t, isKey'), st) ∧
    (isKey' = true ↔ Forall (λ t', t' = EventTimeType) (take (S i) ts)).
Proof.
  intros Hi Hk. unfold slot_value, slot_spec.
  erewrite (take_S_r ts i t) by done. setoid_rewrite Forall_app.
  setoid_rewrite Forall_singleton.
  destruct (decide (t = EventTimeType)) as [Ht|Ht].
  - exists isKey. split; [done|]. rewrite Hk. tauto.
  - destruct isKey.
    + exists false. rewrite decide_True by (by apply Hk). split; [done|].
      split; [done|]. intros [_ ?]. done.
    + exists false. rewrite decide_False by (rewrite <-Hk; done). split; [done|].
      split; [done|]. intros [_ ?]. done.
Qed.

Lemma assign_ok st lo t x :
  decls st !! lo = Some t → type_of (decls st) x = Some t →
  assign (VPtr lo) x st = (Ret tt, set_vars (<[lo:=x]> (vars st)) st).
Proof.
  intros Hlo Hx. unfold assign. rewrite Hlo.
  destruct x; try done; by rewrite decide_True.
Qed.

Lemma declared_length d locs ts : declared d locs ts → length locs = length ts.
Proof. apply Forall2_length. Qed.

Lemma fill_spec e locs all_ts st0 :
  declared (decls st0) locs all_ts → conforms (decls st0) all_ts e →
  ∀ ts i (isKey : bool) st,
    drop i all_ts = ts →
    (isKey = true ↔ Forall (λ t', t' = EventTimeType) (take i all_ts)) →
    world st = world st0 → inputs st = inputs st0 → heap st = heap st0 →
    decls st = decls st0 →
    vars st = write_all (take i (zip locs (mapped e all_ts))) (vars st0) →
    fill (Some e) (VPtr <$> locs) i isKey ts st =
      (Ret tt, set_vars (write_all (zip locs (mapped e all_ts)) (vars st0)) st0).
Proof.
  intros Hdecl Hconf ts. pose proof (declared_length _ _ _ Hdecl) as Hlen.
  induction ts as [|t ts IH]; intros i isKey st Hd Hk Hw Hin Hh Hds Hv.
  - simpl. unfold ret. f_equal. destruct st as [w1 i1 h1 v1 d1]; simpl in *. subst.
    unfold set_vars. destruct st0; simpl. f_equal.
    f_equal. rewrite take_ge; [done|].
    rewrite length_zip, mapped_length.
    assert (length (drop i all_ts) = 0) as Hl by (by rewrite Hd).
    rewrite length_drop in Hl. lia.
  - assert (all_ts !! i = Some t) as Hi.
    { rewrite <-(Nat.add_0_r i), <-lookup_drop, Hd. done. }
    assert (i < length all_ts) as Hlt by (by eapply lookup_lt_Some).
    destruct (lookup_lt_is_Some_2 locs i) as [lo Hlo]; [lia|].
    assert (decls st !! lo = Some t) as Hlot.
    { rewrite Hds. by eapply (Forall2_lookup_lr _ _ _ i lo t Hdecl). }
    assert (type_of (decls st) (slot_spec e all_ts i t) = Some t) as Hty.
    { rewrite Hds.
      by eapply (Forall2_lookup_lr _ _ _ i _ t Hconf); [apply mapped_lookup|]. }
    cbn [fill].
    destruct (slot_value_spec e all_ts i t isKey st Hi Hk) as (isKey' & Hsv & Hk').
    rewrite (bind_ret _ _ _ _ _ Hsv). cbn [fst snd].
    unfold index. rewrite list_lookup_fmap, Hlo. cbn [fmap option_fmap option_map].
    unfold bind at 1. unfold ret at 1.
    rewrite (bind_ret _ _ _ _ _ (assign_ok st lo t _ Hlot Hty)).
    apply IH; try done.
    + by rewrite <-(Nat.add_1_r i), <-drop_drop, Hd.
    + cbn. rewrite Hv.
      erewrite (take_S_r _ i (lo, slot_spec e all_ts i t)).
      * by rewrite write_all_snoc.
      * rewrite lookup_zip_with, Hlo. cbn.
        by rewrite (mapped_lookup e all_ts i t Hi).
Qed.

Lemma write_all_lookup_notin (ws : list (loc * value)) (m : gmap loc value) lo :
  lo ∉ ws.*1 → write_all ws m !! lo = m !! lo.
Proof.
  revert m. induction ws as [|[lo' x] ws IH]; intros m Hn; [done|].
  cbn in Hn. apply not_elem_of_cons in Hn as [Hne Hn].
  unfold write_all. cbn. fold (write_all ws (<[lo':=x]> m)).
  rewrite IH by done. by rewrite lookup_insert_ne.
Qed.

(** With pairwise distinct targets every variable ends up with its own
    slot's value. *)
Lemma write_all_read locs (vs : list value) (m : gmap loc value) :
  NoDup locs → length locs = length vs →
  (λ lo, write_all (zip locs vs) m !! lo) <$> locs = Some <$> vs.
Proof.
  intros Hnd. revert vs m.
  induction Hnd as [|lo locs Hnotin Hnd IH]; intros [|x vs] m Hlen; try done.
  cbn in Hlen. cbn [zip zip_with fmap list_fmap]. f_equal.
  - unfold write_all. cbn. fold (write_all (zip locs vs) (<[lo:=x]> m)).
    rewrite write_all_lookup_notin.
    + by rewrite lookup_insert_eq.
    + intros Hin. apply Hnotin.
      apply list_elem_of_fmap in Hin as [[lo' x'] [-> Hin]].
      by apply elem_of_zip_l in Hin.
  - unfold write_all. cbn. fold (write_all (zip locs vs) (<[lo:=x]> m)).
    apply IH. lia.
Qed.

(** ** One call of the iterator's callable *)

Lemma invoke_record st a v c e wd locs :
  heap st !! a = Some (ObjIter v) → cur v = Some c →
  Read c (world st) = ((Some e, None), wd) →
  declared (decls st) locs (types v) → conforms (decls st) (types v) e →
  iterValue_invoke a (VPtr <$> locs) st =
    (Ret [VBool true],
     set_vars (write_all (zip locs (mapped e (types v))) (vars st)) (set_world wd st)).
Proof.
  intros Ha Hc Hr Hdecl Hconf. unfold iterValue_invoke.
  rewrite (bind_ret _ _ _ _ _ (load_iter_at _ _ _ Ha)), Hc.
  rewrite (bind_ret _ _ _ _ _ (ext_at _ _ _ _ Hr)). cbn [fst snd].
  erewrite bind_ret; [reflexivity|].
  by apply (fill_spec e locs (types v) (set_world wd st)).
Qed.

Lemma invoke_eof st a v c x wd args :
  heap st !! a = Some (ObjIter v) → cur v = Some c →
  Read c (world st) = ((x, Some EOF), wd) →
  iterValue_invoke a args st = (Ret [VBool false], set_world wd st).
Proof.
  intros Ha Hc Hr. unfold iterValue_invoke.
  rewrite (bind_ret _ _ _ _ _ (load_iter_at _ _ _ Ha)), Hc.
  rewrite (bind_ret _ _ _ _ _ (ext_at _ _ _ _ Hr)). cbn [fst snd].
  by rewrite decide_True.
Qed.

Lemma invoke_broken st a v c x err wd args :
  heap st !! a = Some (ObjIter v) → cur v = Some c →
  Read c (world st) = ((x, Some err), wd) → err ≠ EOF →
  iterValue_invoke a args st =
    (Panicked (PanicError (Wrap err "broken stream")), set_world wd st).
Proof.
  intros Ha Hc Hr Hne. unfold iterValue_invoke.
  rewrite (bind_ret _ _ _ _ _ (load_iter_at _ _ _ Ha)), Hc.
  rewrite (bind_ret _ _ _ _ _ (ext_at _ _ _ _ Hr)). cbn [fst snd].
  by rewrite decide_False.
Qed.

Lemma invoke_uninitialised st a v args :
  heap st !! a = Some (ObjIter v) → cur v = None →
  iterValue_invoke a args st = (Panicked (PanicString "Init() not called"), st).
Proof.
  intros Ha Hc. unfold iterValue_invoke.
  by rewrite (bind_ret _ _ _ _ _ (load_iter_at _ _ _ Ha)), Hc.
Qed.

(** C2. On a record that was read successfully the callable fills the
    slots from left to right and reports success: every event-time slot
    receives the timestamp, the first slot that is not an event-time slot
    the primary value and every later one the secondary value, each
    converted to the slot's type ([mapped] words exactly this).  That the
    conversion gives values of the slots' types, and that the out-parameters
    point to variables of these types, is what the store through them asks
    for.  For the shape event time, key, value the slots receive timestamp,
    primary, secondary; for a single key slot it is the primary value alone,
    whatever the timestamp and the secondary value are. *)
Theorem iterValue_invoke_maps_fields st a v c e wd locs :
  heap st !! a = Some (ObjIter v) → cur v = Some c →
  Read c (world st) = ((Some e, None), wd) →
  declared (decls st) locs (types v) → conforms (decls st) (types v) e →
  iterValue_invoke a (VPtr <$> locs) st =
    (Ret [VBool true],
     set_vars (write_all (zip locs (mapped e (types v))) (vars st)) (set_world wd st))
  ∧ (NoDup locs →
     (λ lo, vars (iterValue_invoke a (VPtr <$> locs) st).2 !! lo) <$> locs =
       Some <$> mapped e (types v))
  ∧ (∀ tk tv, tk ≠ EventTimeType → tv ≠ EventTimeType →
       mapped e [EventTimeType; tk; tv] =
         [VTime (Timestamp e); Convert (Elm e) tk; Convert (Elm2 e) tv])
  ∧ (∀ tk, tk ≠ EventTimeType → mapped e [tk] = [Convert (Elm e) tk]).
Proof.
  intros Ha Hc Hr Hdecl Hconf.
  pose proof (invoke_record st a v c e wd locs Ha Hc Hr Hdecl Hconf) as Hinv.
  pose proof (declared_length _ _ _ Hdecl) as Hlen.
  split; [exact Hinv|]. split; [|split].
  - intros Hnd. rewrite Hinv. cbn.
    apply write_all_read; [done|]. by rewrite mapped_length.
  - intros tk tv Hk Hv. unfold mapped, slot_spec. cbn.
    rewrite decide_True by done.
    rewrite (decide_False (P := tk = EventTimeType)) by done.
    rewrite (decide_False (P := tv = EventTimeType)) by done.
    rewrite decide_True by (repeat constructor).
    rewrite decide_False; [done|].
    intros HF. apply Forall_cons in HF as [_ HF]. apply Forall_cons in HF as [HF _]. done.
  - intros tk Hk. unfold mapped, slot_spec. cbn.
    rewrite decide_False by done. by rewrite decide_True by constructor.
Qed.

(** C3. A read that fails with anything but the end of the stream makes the
    callable panic with the error wrapped as a broken stream; it does not
    come back with the result for an exhausted stream, nor with any result. *)
Theorem iterValue_invoke_broken_stream st a v c x err wd args :
  heap st !! a = Some (ObjIter v) → cur v = Some c →
  Read c (world st) = ((x, Some err), wd) → err ≠ EOF →
  iterValue_invoke a args st =
    (Panicked (PanicError (Wrap err "broken stream")), set_world wd st)
  ∧ ∀ r, (iterValue_invoke a args st).1 ≠ Ret r.
Proof.
  intros Ha Hc Hr Hne.
  pose proof (invoke_broken st a v c x err wd args Ha Hc Hr Hne) as Hinv.
  split; [exact Hinv|]. intros r. by rewrite Hinv.
Qed.

(** C8. At the end of the stream the callable returns false and writes to
    no out-parameter: the user variables, and the iterator itself, are as
    they were before the call. *)
Theorem iterValue_invoke_eof_untouched st a v c x wd args :
  heap st !! a = Some (ObjIter v) → cur v = Some c →
  Read c (world st) = ((x, Some EOF), wd) →
  ∃ st', iterValue_invoke a args st = (Ret [VBool false], st') ∧
         vars st' = vars st ∧ heap st' = heap st ∧ inputs st' = inputs st ∧
         world st' = wd.
Proof.
  intros Ha Hc Hr. exists (set_world wd st).
  split; [by eapply invoke_eof|done].
Qed.

(** ** Init and Reset *)

Lemma Init_opens st a v rs oc wd :
  heap st !! a = Some (ObjIter v) → s v = Some rs →
  Open rs (world st) = ((oc, None), wd) →
  iterValue_Init a st =
    (Ret None,
     set_heap (<[a:=ObjIter (mkIterValue (s v) (fn v) (types v) oc)]> (heap st))
              (set_world wd st)).
Proof.
  intros Ha Hs Ho. unfold iterValue_Init.
  rewrite (bind_ret _ _ _ _ _ (load_iter_at _ _ _ Ha)), Hs.
  by rewrite (bind_ret _ _ _ _ _ (ext_at _ _ _ _ Ho)).
Qed.

Lemma Reset_closes st a v c r wd :
  heap st !! a = Some (ObjIter v) → cur v = Some c →
  Close c (world st) = (r, wd) →
  iterValue_Reset a st =
    (Ret r,
     match r with
     | Some _ => set_world wd st
     | None =>
         set_heap (<[a:=ObjIter (mkIterValue (s v) (fn v) (types v) None)]> (heap st))
                  (set_world wd st)
     end).
Proof.
  intros Ha Hc Hcl. unfold iterValue_Reset.
  rewrite (bind_ret _ _ _ _ _ (load_iter_at _ _ _ Ha)), Hc.
  rewrite (bind_ret _ _ _ _ _ (ext_at _ _ _ _ Hcl)).
  by destruct r.
Qed.

(** C10. When closing the cursor fails, Reset returns the error of the
    close and leaves the iterator as it was, its cursor still set; the
    cursor is cleared by a close that succeeds, and only by that. *)
Theorem iterValue_Reset_close_error st a v c r wd :
  heap st !! a = Some (ObjIter v) → cur v = Some c →
  Close c (world st) = (r, wd) →
  ∃ st', iterValue_Reset a st = (Ret r, st') ∧ world st' = wd ∧
    heap st' !! a =
      Some (ObjIter (mkIterValue (s v) (fn v) (types v)
                       (match r with Some _ => Some c | None => None end))).
Proof.
  intros Ha Hc Hcl.
  eexists. split; [by eapply Reset_closes|]. destruct r as [err|]; cbn.
  - split; [done|]. rewrite Ha, <-Hc. by destruct v.
  - split; [done|]. apply list_lookup_insert_eq. by eapply lookup_lt_Some.
Qed.

(** C4, as the code has it. Before Init, Reset panics with the
    lifecycle-misuse message and so does every call of the callable; Value
    checks nothing and hands out the callable. *)
Theorem iterValue_misuse_before_Init st a v t args :
  heap st !! a = Some (ObjIter v) → cur v = None →
  fn v = VFunc t (FnIter a) →
  iterValue_Reset a st = (Panicked (PanicString "Init() not called"), st)
  ∧ iterValue_Value a st = (Ret (fn v), st)
  ∧ call (fn v) args st = (Panicked (PanicString "Init() not called"), st).
Proof.
  intros Ha Hc Hf. split; [|split].
  - unfold iterValue_Reset.
    by rewrite (bind_ret _ _ _ _ _ (load_iter_at _ _ _ Ha)), Hc.
  - by apply Value_iter_at.
  - rewrite Hf. cbn [call]. by apply invoke_uninitialised with v.
Qed.

(** ** A whole pass *)

Lemma replicate_S_cons {A} (x : A) n : replicate (S n) x = x :: replicate n x.
Proof. done. Qed.

Lemma call_n_S_ret f args n st r st1 rs st2 :
  call f args st = (Ret r, st1) → call_n n f args st1 = (rs, st2) →
  call_n (S n) f args st = (Ret r :: rs, st2).
Proof. intros H1 H2. cbn [call_n]. by rewrite H1, H2. Qed.

Lemma call_n_pass t a v c locs d l :
  cur v = Some c → declared d locs (types v) → Forall (conforms d (types v)) l →
  ∀ st, heap st !! a = Some (ObjIter v) → decls st = d → delivers c l (world st) →
  ∃ st',
    call_n (S (length l)) (VFunc t (FnIter a)) (VPtr <$> locs) st =
      (replicate (length l) (Ret [VBool true]) ++ [Ret [VBool false]], st') ∧
    world st' = reads (S (length l)) c (world st) ∧
    heap st' = heap st ∧ inputs st' = inputs st.
Proof.
  intros Hc Hdecl Hconf. induction Hconf as [|e l He Hconf IH]; intros st Ha Hds Hd.
  - destruct Hd as (x & wd & Hr). exists (set_world wd st).
    cbn [call_n call length replicate app].
    rewrite (invoke_eof st a v c x wd _ Ha Hc Hr).
    cbn. by rewrite Hr.
  - destruct Hd as (wd & Hr & Hd). subst d.
    pose proof (invoke_record st a v c e wd locs Ha Hc Hr Hdecl He) as Hinv.
    set (st1 := set_vars _ _) in Hinv.
    destruct (IH st1) as (st' & Hrun & Hw & Hh & Hi); [done|done|done|].
    exists st'. split; [|split; [|done]].
    + change (length (e :: l)) with (S (length l)).
      rewrite replicate_S_cons. cbn [app].
      by apply call_n_S_ret with st1.
    + rewrite Hw. cbn. by rewrite Hr.
Qed.

(** C1. After Init on a stream that holds [N] records the callable returns
    true [N] times and then false: [N + 1] calls in a row give exactly these
    results, and they are [N + 1] reads of the cursor, one for each call.
    The records are such as the callable can hand out: converted, their
    fields have the types of the slots, and the out-parameters point to
    variables of these types. *)
Theorem iterValue_pass_N_then_false st a v t rs c wd l locs :
  heap st !! a = Some (ObjIter v) → s v = Some rs →
  fn v = VFunc t (FnIter a) →
  Open rs (world st) = ((Some c, None), wd) → delivers c l wd →
  declared (decls st) locs (types v) →
  Forall (conforms (decls st) (types v)) l →
  ∃ st1 f st2,
    iterValue_Init a st = (Ret None, st1) ∧
    iterValue_Value a st1 = (Ret f, st1) ∧
    call_n (S (length l)) f (VPtr <$> locs) st1 =
      (replicate (length l) (Ret [VBool true]) ++ [Ret [VBool false]], st2) ∧
    world st2 = reads (S (length l)) c wd.
Proof.
  intros Ha Hs Hf Ho Hd Hdecl Hconf.
  pose proof (Init_opens st a v rs (Some c) wd Ha Hs Ho) as Hinit.
  set (v1 := mkIterValue _ _ _ _) in Hinit. set (st1 := set_heap _ _) in Hinit.
  assert (heap st1 !! a = Some (ObjIter v1)) as Ha1.
  { apply list_lookup_insert_eq. by eapply lookup_lt_Some. }
  destruct (call_n_pass t a v1 c locs (decls st) l eq_refl Hdecl Hconf st1 Ha1 eq_refl Hd)
    as (st2 & Hrun & Hw & _ & _).
  exists st1, (fn v), st2. split; [done|]. split; [|split].
  - exact (Value_iter_at st1 a v1 Ha1).
  - by rewrite Hf.
  - done.
Qed.

(** ** The registry *)

Lemma register_all_inputs regs : ∀ st,
  register_all regs st =
    (Ret tt, set_inputs (foldl (λ m p, <[p.1:=p.2]> m) (inputs st) regs) st).
Proof.
  induction regs as [|[t maker] regs IH]; intros st.
  - by destruct st.
  - cbn [register_all foldl]. unfold bind, RegisterInput. rewrite IH. by destruct st.
Qed.

Lemma registrations_elsewhere (regs : list (rtype * Maker)) t :
  Forall (λ p, p.1 ≠ t) regs →
  ∀ m : gmap rtype Maker, foldl (λ m p, <[p.1:=p.2]> m) m regs !! t = m !! t.
Proof.
  induction 1 as [|[t' maker] regs Hne _ IH]; intros m; [done|].
  cbn [foldl]. rewrite IH. by apply lookup_insert_ne.
Qed.

(** C7. After a constructor [A] and then a constructor [B] were registered
    for a type, every lookup of that type finds [B], whatever is registered
    for other types afterwards: the map holds [B], IsInputRegistered says
    yes, and makeIter builds its result by calling [B]. *)
Theorem RegisterInput_last_wins st t (A B : Maker) regs rs :
  Forall (λ p, p.1 ≠ t) regs →
  ∃ st',
    (RegisterInput t A ;;; RegisterInput t B ;;; register_all regs) st = (Ret tt, st') ∧
    inputs st' !! t = Some B ∧
    IsInputRegistered t st' = (Ret true, st') ∧
    makeIter t rs st' = (c <- ext (call_maker B rs) ;; ret (RICustom c)) st'.
Proof.
  intros Hregs. eexists. split.
  { unfold bind at 1. cbn [RegisterInput]. unfold bind at 1.
    cbn [RegisterInput]. apply register_all_inputs. }
  assert (∀ m : gmap rtype Maker,
    foldl (λ m p, <[p.1:=p.2]> m) (<[t:=B]> (<[t:=A]> m)) regs !! t = Some B) as Hl.
  { intros m. rewrite registrations_elsewhere by done. apply lookup_insert_eq. }
  split; [apply Hl|]. split.
  - unfold IsInputRegistered. cbn. by rewrite Hl, bool_decide_true.
  - unfold makeIter, bind at 1, lookup_input. cbn [inputs set_inputs]. by rewrite Hl.
Qed.

(** ** A fresh iterator *)

Lemma heap_store_last (h : list object) (o o' : object) :
  <[length h:=o']> (h ++ [o]) = h ++ [o'].
Proof.
  rewrite insert_app_r_alt by lia. by rewrite Nat.sub_diag.
Qed.

Lemma makeIter_fresh st t ts ors :
  inputs st !! t = None → UnfoldIter t = Some ts →
  makeIter t ors st =
    (Ret (RIIter (length (heap st))),
     set_heap (heap st ++
                 [ObjIter (mkIterValue ors (VFunc t (FnIter (length (heap st)))) ts None)])
              st).
Proof.
  intros Hin Hu. unfold makeIter, bind at 1, lookup_input. rewrite Hin, Hu.
  unfold bind, alloc, store, ret. cbn. by rewrite heap_store_last.
Qed.

(** makeIter, Init and Value in a row, as both the factory and the multimap
    do: a new iterator at the next free address with its cursor open. *)
Lemma spawn_iter st t ts rs c wd :
  inputs st !! t = None → UnfoldIter t = Some ts →
  Open rs (world st) = ((Some c, None), wd) →
  (iter <- makeIter t (Some rs) ;; Init iter ;;; f <- Value iter ;; ret [f]) st =
    (Ret [VFunc t (FnIter (length (heap st)))],
     set_heap (heap st ++
                 [ObjIter (mkIterValue (Some rs) (VFunc t (FnIter (length (heap st))))
                             ts (Some c))])
              (set_world wd st)).
Proof.
  intros Hin Hu Ho.
  rewrite (bind_ret _ _ _ _ _ (makeIter_fresh st t ts (Some rs) Hin Hu)).
  set (v := mkIterValue _ _ _ _). set (st1 := set_heap _ st).
  assert (heap st1 !! length (heap st) = Some (ObjIter v)) as Ha.
  { cbn. by rewrite lookup_app_r, Nat.sub_diag by lia. }
  cbn [Init Value].
  rewrite (bind_ret _ _ _ _ _ (Init_opens st1 _ v rs (Some c) wd Ha eq_refl Ho)).
  erewrite (bind_ret (iterValue_Value _)).
  2:{ apply Value_iter_at. cbn [heap set_heap set_world].
      apply list_lookup_insert_eq. subst st1. cbn. rewrite length_app. cbn. lia. }
  subst st1 v. cbn. unfold ret. by rewrite heap_store_last.
Qed.

(** ** What a loop over the callable sees *)

Lemma seen_length ts l : length (seen ts l) = length l.
Proof. unfold seen. apply length_fmap. Qed.

Lemma observe_step st a v t c locs l :
  heap st !! a = Some (ObjIter v) → cur v = Some c →
  NoDup locs → declared (decls st) locs (types v) →
  Forall (conforms (decls st) (types v)) l →
  delivers c l (world st) →
  ∃ st',
    observe (VFunc t (FnIter a)) locs st =
      (Ret (match l with
            | [] => None
            | e :: _ => Some (Some <$> mapped e (types v))
            end), st') ∧
    heap st' = heap st ∧ inputs st' = inputs st ∧ decls st' = decls st ∧
    world st' = (Read c (world st)).2 ∧
    match l with
    | [] => True
    | _ :: l' => delivers c l' (world st')
    end.
Proof.
  intros Ha Hc Hnd Hdecl Hconf Hd. unfold observe. cbn [call].
  pose proof (declared_length _ _ _ Hdecl) as Hlen.
  destruct l as [|e l].
  - destruct Hd as (x & wd & Hr). exists (set_world wd st).
    rewrite (bind_ret _ _ _ _ _ (invoke_eof st a v c x wd _ Ha Hc Hr)).
    by rewrite Hr.
  - destruct Hd as (wd & Hr & Hd). apply Forall_cons in Hconf as [He _].
    rewrite (bind_ret _ _ _ _ _ (invoke_record st a v c e wd locs Ha Hc Hr Hdecl He)).
    eexists. split.
    + cbn [vars set_vars]. rewrite write_all_read; [done|done|].
      by rewrite mapped_length.
    + by rewrite Hr.
Qed.

Lemma pulls_live a v t c locs d :
  cur v = Some c → NoDup locs → declared d locs (types v) →
  ∀ n l st,
    n ≤ S (length l) → Forall (conforms d (types v)) l →
    heap st !! a = Some (ObjIter v) → decls st = d → delivers c l (world st) →
    ∃ st',
      pulls n (VFunc t (FnIter a)) locs st =
        (Ret (take n (seen (types v) l ++ [None])), st') ∧
      heap st' = heap st ∧ inputs st' = inputs st ∧ decls st' = d ∧
      world st' = reads n c (world st) ∧
      (n ≤ length l → delivers c (drop n l) (world st')).
Proof.
  intros Hc Hnd Hdecl. induction n as [|n IH]; intros l st Hn Hconf Ha Hds Hd.
  - exists st. by rewrite drop_0.
  - subst d.
    destruct (observe_step st a v t c locs l Ha Hc Hnd Hdecl Hconf Hd)
      as (st1 & Hobs & Hh & Hi & Hds1 & Hw & Hd1).
    cbn [pulls]. rewrite (bind_ret _ _ _ _ _ Hobs).
    destruct l as [|e l].
    + assert (n = 0) as -> by (cbn in Hn; lia).
      exists st1. cbn. split; [done|]. split; [done|]. split; [done|].
      split; [done|]. split; [by rewrite Hw|]. lia.
    + apply Forall_cons in Hconf as [_ Hconf].
      destruct (IH l st1) as (st' & Hp & Hh' & Hi' & Hds' & Hw' & Hd');
        [cbn in Hn; lia|done|by rewrite Hh|done|done|].
      exists st'. rewrite (bind_ret _ _ _ _ _ Hp). cbn.
      split; [done|]. split; [congruence|]. split; [congruence|].
      split; [done|]. split; [by rewrite Hw', Hw|]. intros ?. apply Hd'. lia.
Qed.

(** ** Panics that carry an error *)

Local Abbreviation no_error_panic m :=
  (∀ st (err : error), (m st).1 ≠ Panicked (PanicError err)).

Lemma nep_bind {A B} (m : M A) (k : A → M B) :
  no_error_panic m → (∀ x, no_error_panic (k x)) → no_error_panic (bind m k).
Proof.
  intros Hm Hk st err. unfold bind.
  specialize (Hm st err). destruct (m st) as [[x|p] st']; [apply Hk|].
  cbn in *. congruence.
Qed.

Lemma nep_ext {A} (f : World → A * World) : no_error_panic (ext f).
Proof. intros st err. unfold ext. by destruct (f (world st)). Qed.

Lemma nep_load_iter a : no_error_panic (load_iter a).
Proof.
  intros st err. unfold load_iter, load, bind.
  by destruct (heap st !! a) as [[]|].
Qed.

Lemma nep_makeIter t ors : no_error_panic (makeIter t ors).
Proof.
  intros st err. unfold makeIter, bind at 1, lookup_input.
  destruct (inputs st !! t) as [maker|].
  - apply nep_bind; [apply nep_ext|done].
  - by destruct (UnfoldIter t).
Qed.

Lemma nep_Init r : no_error_panic (Init r).
Proof.
  destruct r as [a|a|a|a|c]; try done; [|apply nep_ext].
  cbn [Init]. unfold iterValue_Init.
  apply nep_bind; [apply nep_load_iter|]. intros v.
  destruct (s v) as [rs|]; [|done].
  apply nep_bind; [apply nep_ext|]. by intros [oc [e|]].
Qed.

Lemma nep_Value r : no_error_panic (Value r).
Proof.
  destruct r as [a|a|a|a|c]; try done; cbn [Value];
    intros st err;
    unfold reIterValue_Value, iterValue_Value, fixedValue_Value,
      multiMapValue_Value, load_reiter, load_iter, load_fixed, load_multimap,
      load, bind;
    by destruct (heap st !! a) as [[]|].
Qed.

(** C9. The error that NewKeyedIterable returns is dropped: whatever it
    is, the callable goes on to build and initialise an iterator over the
    stream value that came with it, and neither its result nor a panic of
    it carries an error. *)
Theorem multiMapValue_invoke_discards_adapter_error st a (v : multiMapValue)
    k ors oerr wd :
  heap st !! a = Some (ObjMultiMap v) →
  NewKeyedIterable (adapter v) (mm_ctx v) (reader v) (w v)
    (VReflect (Convert (VReflect k) (keyType v))) (world st) = ((ors, oerr), wd) →
  multiMapValue_invoke a [k] st =
    (t <- out0 (mm_t v) ;;
     iter <- makeIter t ors ;;
     Init iter ;;;
     f <- Value iter ;;
     ret [f]) (set_world wd st)
  ∧ ∀ err, (multiMapValue_invoke a [k] st).1 ≠ Panicked (PanicError err).
Proof.
  intros Ha Hnew.
  assert (multiMapValue_invoke a [k] st =
    (t <- out0 (mm_t v) ;; iter <- makeIter t ors ;; Init iter ;;;
     f <- Value iter ;; ret [f]) (set_world wd st)) as Heq.
  { unfold multiMapValue_invoke.
    rewrite (bind_ret _ _ _ _ _ (load_multimap_at _ _ _ Ha)).
    by rewrite (bind_ret _ _ _ _ _ (ext_at _ _ _ _ Hnew)). }
  split; [done|]. intros err. rewrite Heq.
  apply nep_bind.
  { intros st' err'. unfold out0. by destruct (Out0 (mm_t v)). }
  intros t. apply nep_bind; [apply nep_makeIter|].
  intros iter. apply nep_bind; [apply nep_Init|].
  intros _. apply nep_bind; [apply nep_Value|done].
Qed.

(** ** Two iterators side by side *)

(** What is left of an iterator's pass: [Some l] while it still holds the
    records [l], [None] once it has reported the end. *)
(** Side conditions of a step of [run_sched_live]. *)
Local Ltac sched_side Hh Hne Hcf :=
  first
    [ done
    | by rewrite ?Hh
    | by intros []
    | by intros _ []
    | by intros; apply Hne
    | cbn [from_option]; by apply Forall_cons in Hcf as [_ ?]
    | cbn [from_option length] in *;
      rewrite ?length_app, ?seen_length in *; cbn [length] in *; lia ].

(** What is left of an iterator's pass: [Some l] while it still holds the
    records [l], [None] once it has reported the end. *)
Lemma run_sched_live a1 a2 v1 v2 t1 t2 c1 c2 locs1 locs2 d :
  independent_cursors →
  cur v1 = Some c1 → cur v2 = Some c2 →
  NoDup locs1 → declared d locs1 (types v1) →
  NoDup locs2 → declared d locs2 (types v2) →
  ∀ sched (rem1 rem2 : option (list FullValue)) st,
    (is_Some rem1 → is_Some rem2 → c1 ≠ c2) →
    heap st !! a1 = Some (ObjIter v1) → heap st !! a2 = Some (ObjIter v2) →
    decls st = d →
    from_option (Forall (conforms d (types v1))) True rem1 →
    from_option (Forall (conforms d (types v2))) True rem2 →
    from_option (λ l, delivers c1 l (world st)) True rem1 →
    from_option (λ l, delivers c2 l (world st)) True rem2 →
    length (filter (eq true) sched) =
      length (from_option (λ l, seen (types v1) l ++ [None]) [] rem1) →
    length (filter (eq false) sched) =
      length (from_option (λ l, seen (types v2) l ++ [None]) [] rem2) →
    ∃ st',
      run_sched sched (VFunc t1 (FnIter a1)) locs1 (VFunc t2 (FnIter a2)) locs2 st =
        (Ret (from_option (λ l, seen (types v1) l ++ [None]) [] rem1,
              from_option (λ l, seen (types v2) l ++ [None]) [] rem2), st').
Proof.
  intros Hind Hc1 Hc2 Hnd1 Hdecl1 Hnd2 Hdecl2.
  induction sched as [|b sched IH];
    intros rem1 rem2 st Hne Ha1 Ha2 Hds Hcf1 Hcf2 Hl1 Hl2 Hn1 Hn2.
  - exists st. cbn in Hn1, Hn2.
    symmetry in Hn1, Hn2. apply length_zero_iff_nil in Hn1, Hn2.
    cbn. by rewrite Hn1, Hn2.
  - subst d. destruct b.
    + rewrite filter_cons_True in Hn1 by done.
      rewrite filter_cons_False in Hn2 by done.
      destruct rem1 as [l1|]; [|done]. cbn [from_option] in Hl1, Hn1, Hcf1 |- *.
      destruct (observe_step st a1 v1 t1 c1 locs1 l1 Ha1 Hc1 Hnd1 Hdecl1 Hcf1 Hl1)
        as (st1 & Hobs & Hh & _ & Hds1 & Hw & Hd1).
      assert (from_option (λ l, delivers c2 l (world st1)) True rem2) as Hl2'.
      { destruct rem2 as [l2|]; [|done]. cbn in *. rewrite Hw. apply Hind; [|done].
        by apply Hne. }
      cbn [run_sched]. rewrite (bind_ret _ _ _ _ _ Hobs).
      destruct l1 as [|e l1].
      * destruct (IH None rem2 st1) as (st' & Hrun); [sched_side Hh Hne Hcf1..|].
        exists st'. rewrite (bind_ret _ _ _ _ _ Hrun). done.
      * destruct (IH (Some l1) rem2 st1) as (st' & Hrun); [sched_side Hh Hne Hcf1..|].
        exists st'. rewrite (bind_ret _ _ _ _ _ Hrun). done.
    + rewrite filter_cons_False in Hn1 by done.
      rewrite filter_cons_True in Hn2 by done.
      destruct rem2 as [l2|]; [|done]. cbn [from_option] in Hl2, Hn2, Hcf2 |- *.
      destruct (observe_step st a2 v2 t2 c2 locs2 l2 Ha2 Hc2 Hnd2 Hdecl2 Hcf2 Hl2)
        as (st1 & Hobs & Hh & _ & Hds1 & Hw & Hd2).
      assert (from_option (λ l, delivers c1 l (world st1)) True rem1) as Hl1'.
      { destruct rem1 as [l1|]; [|done]. cbn in *. rewrite Hw. apply Hind; [|done].
        intros ->. by apply Hne. }
      cbn [run_sched]. rewrite (bind_ret _ _ _ _ _ Hobs).
      destruct l2 as [|e l2].
      * destruct (IH rem1 None st1) as (st' & Hrun); [sched_side Hh Hne Hcf2..|].
        exists st'. rewrite (bind_ret _ _ _ _ _ Hrun). done.
      * destruct (IH rem1 (Some l2) st1) as (st' & Hrun); [sched_side Hh Hne Hcf2..|].
        exists st'. rewrite (bind_ret _ _ _ _ _ Hrun). done.
Qed.

Lemma reIterValue_invoke_spawns st a (v : reIterValue) rs t ts c wd args :
  heap st !! a = Some (ObjReIter v) → ri_s v = Some rs →
  Out0 (ri_t v) = Some t → inputs st !! t = None → UnfoldIter t = Some ts →
  Open rs (world st) = ((Some c, None), wd) →
  reIterValue_invoke a args st =
    (Ret [VFunc t (FnIter (length (heap st)))],
     set_heap (heap st ++
                 [ObjIter (mkIterValue (Some rs) (VFunc t (FnIter (length (heap st))))
                             ts (Some c))])
              (set_world wd st)).
Proof.
  intros Ha Hs Ht Hin Hu Ho. unfold reIterValue_invoke.
  rewrite (bind_ret _ _ _ _ _ (load_reiter_at _ _ _ Ha)).
  rewrite (bind_ret _ _ _ _ _ (out0_at _ _ _ Ht)), Hs.
  by apply spawn_iter.
Qed.

(** C6. Every call of the factory's callable builds a new iterator over
    the factory's stream, opens it and returns its callable.  Over a
    restartable stream of records [l]: let the first callable be stepped [k]
    times, as far as to the end of the stream, before the factory is called
    again; then, in whatever order the two callables are stepped from there
    on, the first sees what is left of its pass and the second sees a whole
    pass, all of [l] in the original order followed by the end of the
    stream.  The records are such as the callables can hand out: converted,
    their fields have the types of the slots, and the out-parameters point
    to variables of these types. *)
Theorem reIterValue_independent_passes st a (v : reIterValue) rs t ts l k sched
    locs1 locs2 :
  heap st !! a = Some (ObjReIter v) → ri_s v = Some rs →
  Out0 (ri_t v) = Some t → inputs st !! t = None → UnfoldIter t = Some ts →
  independent_cursors → restartable rs l →
  Forall (conforms (decls st) ts) l →
  NoDup locs1 → declared (decls st) locs1 ts →
  NoDup locs2 → declared (decls st) locs2 ts →
  k ≤ S (length l) →
  length (filter (eq true) sched) = S (length l) - k →
  length (filter (eq false) sched) = S (length l) →
  ∃ f1 st1 st2 f2 st3 st4,
    reIterValue_invoke a [] st = (Ret [f1], st1) ∧
    pulls k f1 locs1 st1 = (Ret (take k (seen ts l ++ [None])), st2) ∧
    reIterValue_invoke a [] st2 = (Ret [f2], st3) ∧
    f1 ≠ f2 ∧
    run_sched sched f1 locs1 f2 locs2 st3 =
      (Ret (drop k (seen ts l ++ [None]), seen ts l ++ [None]), st4).
Proof.
  intros Ha Hs Ht Hin Hu Hind Hre Hconf Hnd1 Hdecl1 Hnd2 Hdecl2 Hk Hn1 Hn2.
  (* the first call of the factory *)
  destruct (Hre (world st)) as (c1 & wd1 & Ho1 & Hd1 & _).
  pose proof (reIterValue_invoke_spawns st a v rs t ts c1 wd1 [] Ha Hs Ht Hin Hu Ho1)
    as Hf1.
  set (a1 := length (heap st)) in *.
  set (v1 := mkIterValue (Some rs) (VFunc t (FnIter a1)) ts (Some c1)) in *.
  set (st1 := set_heap _ _) in Hf1.
  assert (heap st1 !! a1 = Some (ObjIter v1)) as Ha1.
  { cbn. by rewrite lookup_app_r, Nat.sub_diag by lia. }
  (* [k] steps of the first iterator *)
  destruct (pulls_live a1 v1 t c1 locs1 (decls st) eq_refl Hnd1 Hdecl1 k l st1)
    as (st2 & Hp & Hh2 & Hi2 & Hds2 & _ & Hd2); [lia|done|done|done|done|].
  (* the second call of the factory *)
  destruct (Hre (world st2)) as (c2 & wd2 & Ho2 & Hd2' & Hframe).
  assert (heap st2 !! a = Some (ObjReIter v)) as Ha'.
  { rewrite Hh2. cbn. by apply lookup_app_l_Some. }
  pose proof (reIterValue_invoke_spawns st2 a v rs t ts c2 wd2 [] Ha' Hs Ht
                ltac:(by rewrite Hi2) Hu Ho2) as Hf2.
  set (a2 := length (heap st2)) in *.
  set (v2 := mkIterValue (Some rs) (VFunc t (FnIter a2)) ts (Some c2)) in *.
  set (st3 := set_heap _ _) in Hf2.
  assert (a2 = S a1) as Ha21.
  { subst a2 a1. rewrite Hh2. cbn. rewrite length_app. cbn. lia. }
  assert (heap st3 !! a1 = Some (ObjIter v1)) as Ha13.
  { cbn. apply lookup_app_l_Some. by rewrite Hh2. }
  assert (heap st3 !! a2 = Some (ObjIter v2)) as Ha23.
  { cbn. by rewrite lookup_app_r, Nat.sub_diag by lia. }
  (* the two iterators in turns; the first may be at its end already *)
  set (rem1 := if decide (k ≤ length l) then Some (drop k l) else None).
  assert (from_option (λ l', seen ts l' ++ [None]) [] rem1 =
          drop k (seen ts l ++ [None])) as Hrem1.
  { subst rem1. destruct (decide (k ≤ length l)) as [Hle|Hgt]; cbn [from_option].
    - rewrite drop_app_le by (rewrite seen_length; lia).
      unfold seen. by rewrite fmap_drop.
    - rewrite drop_ge; [done|]. rewrite length_app, seen_length. cbn. lia. }
  destruct (run_sched_live a1 a2 v1 v2 t t c1 c2 locs1 locs2 (decls st) Hind
              eq_refl eq_refl Hnd1 Hdecl1 Hnd2 Hdecl2 sched rem1 (Some l) st3)
    as (st4 & Hrun); try done.
  { subst rem1. destruct (decide (k ≤ length l)) as [Hle|Hgt]; intros [? [=]] _.
    by destruct (Hframe c1 (drop k l) (Hd2 Hle)). }
  { subst rem1. destruct (decide (k ≤ length l)) as [Hle|Hgt]; [|done].
    cbn. by apply Forall_drop. }
  { subst rem1. destruct (decide (k ≤ length l)) as [Hle|Hgt]; [|done].
    cbn. by destruct (Hframe c1 (drop k l) (Hd2 Hle)). }
  { change (types v1) with ts. rewrite Hrem1, Hn1, length_drop, length_app, seen_length.
    cbn. lia. }
  { cbn. rewrite length_app, seen_length. cbn. lia. }
  exists (VFunc t (FnIter a1)), st1, st2, (VFunc t (FnIter a2)), st3, st4.
  split; [done|]. split; [done|]. split; [done|]. split.
  { intros Heq. injection Heq. lia. }
  rewrite Hrun. change (types v1) with ts. by rewrite Hrem1.
Qed.

(** * Further properties of the package *)

(** ** What a call of the iterator's callable leaves alone *)

Lemma load_iter_pure a st o st1 : load_iter a st = (o, st1) → st1 = st.
Proof.
  unfold load_iter, load, bind, ret, panic.
  destruct (heap st !! a) as [[]|]; by intros [= _ <-].
Qed.

Lemma slot_value_pure elm (isKey : bool) t st o st1 :
  slot_value elm isKey t st = (o, st1) → st1 = st.
Proof.
  unfold slot_value, field, bind, ret, panic.
  destruct (decide (t = EventTimeType)), isKey, elm; by intros [= _ <-].
Qed.

(** A store through an argument either changes nothing or writes the one
    variable a pointer argument points to. *)
Lemma assign_frame arg x st o st' :
  assign arg x st = (o, st') →
  st' = st ∨
  ∃ lo, arg = VPtr lo ∧ st' = set_vars (<[lo:=x]> (vars st)) st ∧ o = Ret tt.
Proof.
  unfold assign, panic.
  destruct arg as [| | | | |lo| | |]; try (intros [= _ <-]; by left).
  destruct (decls st !! lo) as [t|]; [|intros [= _ <-]; by left].
  destruct x; try (intros [= _ <-]; by left);
    (destruct (decide (_ = Some t)); intros [= <- <-]; [right; by eexists|by left]).
Qed.

Lemma fill_frame elm args ts : ∀ i (isKey : bool) st o st',
  fill elm args i isKey ts st = (o, st') →
  world st' = world st ∧ inputs st' = inputs st ∧ heap st' = heap st ∧
  ∀ lo, VPtr lo ∉ args → vars st' !! lo = vars st !! lo.
Proof.
  induction ts as [|t ts IH]; intros i isKey st o st' Hf.
  { by injection Hf as _ <-. }
  cbn [fill] in Hf. unfold bind at 1 in Hf.
  destruct (slot_value elm isKey t st) as [[r|p] st1] eqn:Hsv;
    apply slot_value_pure in Hsv as ->; [|by injection Hf as _ <-].
  unfold bind at 1, index in Hf.
  destruct (args !! i) as [arg|] eqn:Hi; [|by injection Hf as _ <-].
  unfold ret at 1 in Hf. unfold bind at 1 in Hf.
  destruct (assign arg r.1 st) as [[[]|p] st1] eqn:Has;
    apply assign_frame in Has as [->|(lo' & -> & -> & Ho)];
    try discriminate Ho; try by injection Hf as _ <-.
  - by apply IH in Hf.
  - apply IH in Hf as (Hw & Hin & Hh & Hv).
    split; [done|]. split; [done|]. split; [done|].
    intros lo Hlo. rewrite Hv by done. cbn.
    apply lookup_insert_ne. intros ->. apply Hlo.
    by eapply list_elem_of_lookup_2.
Qed.

(** X1. Whatever the arguments and however the call ends, the callable of
    an iterator writes to no variable but those its pointer arguments
    point to. *)
Theorem iterValue_invoke_writes_only_out_params st a args lo :
  VPtr lo ∉ args →
  vars (iterValue_invoke a args st).2 !! lo = vars st !! lo.
Proof.
  intros Hlo. unfold iterValue_invoke. unfold bind at 1.
  destruct (load_iter a st) as [[v|p] st1] eqn:Hl;
    apply load_iter_pure in Hl as ->; [|done].
  destruct (cur v) as [c|]; [|done]. unfold bind at 1, ext.
  destruct (Read c (world st)) as [[elm [err|]] wd]; cbn [fst snd].
  - by destruct (decide (err = EOF)).
  - unfold bind.
    destruct (fill elm args 0 true (types v) (set_world wd st))
      as [[[]|p] st'] eqn:Hf;
      apply fill_frame in Hf as (_ & _ & _ & Hv); by rewrite Hv.
Qed.

(** X2. A call of the callable of an initialised iterator, whatever its
    arguments and however it ends, panics included, is exactly one read of
    the cursor; it changes neither the objects, the iterator and its cursor
    field among them, nor the registry. *)
Theorem iterValue_invoke_reads_once st a v c args :
  heap st !! a = Some (ObjIter v) → cur v = Some c →
  world (iterValue_invoke a args st).2 = (Read c (world st)).2 ∧
  heap (iterValue_invoke a args st).2 = heap st ∧
  inputs (iterValue_invoke a args st).2 = inputs st.
Proof.
  intros Ha Hc.
  destruct (iterValue_invoke a args st) as [o st'] eqn:Hinv. cbn [snd].
  unfold iterValue_invoke in Hinv.
  rewrite (bind_ret _ _ _ _ _ (load_iter_at _ _ _ Ha)), Hc in Hinv.
  unfold bind at 1, ext in Hinv.
  destruct (Read c (world st)) as [[elm [err|]] wd]; cbn [fst snd] in Hinv |- *.
  - by destruct (decide (err = EOF)); injection Hinv as _ <-.
  - unfold bind in Hinv.
    destruct (fill elm args 0 true (types v) (set_world wd st))
      as [[[]|p] st1] eqn:Hf;
      apply fill_frame in Hf as (Hw & Hin & Hh & _);
      by injection Hinv as _ <-.
Qed.

(** X3. With at most one slot that is not an event-time slot the loop over
    the slots does not depend on the secondary value of the record: two
    records with the same primary value and timestamp have the same
    effect. *)
Theorem fill_secondary_unused ts : ∀ e e' args i (isKey : bool) st,
  Elm e = Elm e' → Timestamp e = Timestamp e' →
  length (filter (λ t, t ≠ EventTimeType) ts) ≤ (if isKey then 1 else 0) →
  fill (Some e) args i isKey ts st = fill (Some e') args i isKey ts st.
Proof.
  induction ts as [|t ts IH]; intros e e' args i isKey st He Ht Hn; [done|].
  cbn [fill]. unfold slot_value, field.
  destruct (decide (t = EventTimeType)) as [Heq|Hne].
  - rewrite filter_cons_False in Hn by (intros ?; done).
    unfold bind at 1 2 5 6. unfold ret at 1 2 3 4. cbn [fst snd]. rewrite Ht.
    unfold bind. destruct (index args i st) as [[arg|p] st1]; [|done].
    destruct (assign arg (VTime (Timestamp e')) st1) as [[[]|p] st2]; [|done].
    by apply IH.
  - rewrite filter_cons_True in Hn by done. cbn [length] in Hn.
    destruct isKey; [|lia].
    unfold bind at 1 2 5 6. unfold ret at 1 2 3 4. cbn [fst snd]. rewrite He.
    unfold bind. destruct (index args i st) as [[arg|p] st1]; [|done].
    destruct (assign arg (Convert (Elm e') t) st1) as [[[]|p] st2]; [|done].
    apply IH; [done|done|lia].
Qed.

(** ** The life cycle of an iterator *)

Lemma iterValue_Init_open_error_at st a v rs oc err wd :
  heap st !! a = Some (ObjIter v) → s v = Some rs →
  Open rs (world st) = ((oc, Some err), wd) →
  iterValue_Init a st = (Ret (Some err), set_world wd st).
Proof.
  intros Ha Hs Ho. unfold iterValue_Init.
  rewrite (bind_ret _ _ _ _ _ (load_iter_at _ _ _ Ha)), Hs.
  by rewrite (bind_ret _ _ _ _ _ (ext_at _ _ _ _ Ho)).
Qed.

(** X4. When the stream does not open, Init returns the error of the
    opening and leaves the iterator as it was, also when a cursor came along
    with the error; an iterator that had no cursor still has none, and its
    callable panics as before Init. *)
Theorem iterValue_Init_open_error st a v rs oc err wd args :
  heap st !! a = Some (ObjIter v) → s v = Some rs →
  Open rs (world st) = ((oc, Some err), wd) →
  iterValue_Init a st = (Ret (Some err), set_world wd st) ∧
  (cur v = None →
   iterValue_invoke a args (set_world wd st) =
     (Panicked (PanicString "Init() not called"), set_world wd st)).
Proof.
  intros Ha Hs Ho. split.
  - by eapply iterValue_Init_open_error_at.
  - intros Hc. by apply invoke_uninitialised with v.
Qed.

(** X5. Init neither checks for nor closes a cursor that is already open:
    on an initialised iterator it opens the stream once more and puts the
    new cursor in place of the old one, which is not closed; a loop over the
    callable then sees what the new cursor holds, records that convert to
    the types of the slots. *)
Theorem iterValue_Init_again st a v t rs c1 c2 wd l locs :
  heap st !! a = Some (ObjIter v) → cur v = Some c1 → s v = Some rs →
  Open rs (world st) = ((Some c2, None), wd) → delivers c2 l wd →
  Forall (conforms (decls st) (types v)) l →
  NoDup locs → declared (decls st) locs (types v) →
  ∃ st1 st2,
    iterValue_Init a st = (Ret None, st1) ∧ world st1 = wd ∧
    heap st1 = <[a:=ObjIter (mkIterValue (s v) (fn v) (types v) (Some c2))]> (heap st) ∧
    pulls (S (length l)) (VFunc t (FnIter a)) locs st1 =
      (Ret (seen (types v) l ++ [None]), st2).
Proof.
  intros Ha Hc Hs Ho Hd Hconf Hnd Hdecl.
  pose proof (Init_opens st a v rs (Some c2) wd Ha Hs Ho) as Hinit.
  set (v1 := mkIterValue _ _ _ _) in *. set (st1 := set_heap _ _) in Hinit.
  assert (heap st1 !! a = Some (ObjIter v1)) as Ha1.
  { apply list_lookup_insert_eq. by eapply lookup_lt_Some. }
  destruct (pulls_live a v1 t c2 locs (decls st) eq_refl Hnd Hdecl (S (length l)) l st1)
    as (st2 & Hp & _); [lia|done|done|done|done|].
  exists st1, st2. split; [done|]. split; [done|]. split; [done|].
  rewrite Hp. by rewrite take_ge by (rewrite length_app, seen_length; cbn; lia).
Qed.

(** X6. A Reset whose close succeeds takes the iterator back to where it
    was before Init: a second Reset panics, and so does a call of the
    callable, both with the message for a missing Init. *)
Theorem iterValue_Reset_then_misuse st a v c wd args :
  heap st !! a = Some (ObjIter v) → cur v = Some c →
  Close c (world st) = (None, wd) →
  ∃ st1,
    iterValue_Reset a st = (Ret None, st1) ∧
    heap st1 !! a = Some (ObjIter (mkIterValue (s v) (fn v) (types v) None)) ∧
    iterValue_Reset a st1 = (Panicked (PanicString "Init() not called"), st1) ∧
    iterValue_invoke a args st1 = (Panicked (PanicString "Init() not called"), st1).
Proof.
  intros Ha Hc Hcl.
  pose proof (Reset_closes st a v c None wd Ha Hc Hcl) as Hr.
  set (v1 := mkIterValue _ _ _ _) in *. set (st1 := set_heap _ _) in Hr.
  assert (heap st1 !! a = Some (ObjIter v1)) as Ha1.
  { apply list_lookup_insert_eq. by eapply lookup_lt_Some. }
  exists st1. split; [done|]. split; [done|]. split.
  - unfold iterValue_Reset.
    by rewrite (bind_ret _ _ _ _ _ (load_iter_at _ _ _ Ha1)).
  - by apply invoke_uninitialised with v1.
Qed.

(** X7. A whole life cycle, twice: Init, [k] steps, Reset, and then Init
    and a loop to the end.  When the close succeeds and the stream opens
    again over the same records, records that convert to the types of the
    slots, the second pass sees all of them from the first one on, however
    far the first pass got. *)
Theorem iterValue_reuse_after_Reset st a v t rs c1 wd1 l k wd2 c2 wd3 locs :
  heap st !! a = Some (ObjIter v) → s v = Some rs →
  Open rs (world st) = ((Some c1, None), wd1) → delivers c1 l wd1 →
  k ≤ S (length l) →
  Close c1 (reads k c1 wd1) = (None, wd2) →
  Open rs wd2 = ((Some c2, None), wd3) → delivers c2 l wd3 →
  Forall (conforms (decls st) (types v)) l →
  NoDup locs → declared (decls st) locs (types v) →
  ∃ st',
    (e1 <- iterValue_Init a ;;
     first <- pulls k (VFunc t (FnIter a)) locs ;;
     e2 <- iterValue_Reset a ;;
     e3 <- iterValue_Init a ;;
     second <- pulls (S (length l)) (VFunc t (FnIter a)) locs ;;
     ret (e1, first, e2, e3, second)) st =
      (Ret (None, take k (seen (types v) l ++ [None]), None, None,
            seen (types v) l ++ [None]), st').
Proof.
  intros Ha Hs Ho1 Hd1 Hk Hcl Ho2 Hd2 Hconf Hnd Hdecl.
  (* Init *)
  pose proof (Init_opens st a v rs (Some c1) wd1 Ha Hs Ho1) as Hinit.
  set (v1 := mkIterValue (s v) (fn v) (types v) (Some c1)) in *.
  set (st1 := set_heap _ _) in Hinit.
  assert (heap st1 !! a = Some (ObjIter v1)) as Ha1.
  { apply list_lookup_insert_eq. by eapply lookup_lt_Some. }
  rewrite (bind_ret _ _ _ _ _ Hinit).
  (* the first pass *)
  destruct (pulls_live a v1 t c1 locs (decls st) eq_refl Hnd Hdecl k l st1)
    as (st2 & Hp & Hh2 & _ & Hds2 & Hw2 & _); [lia|done|done|done|done|].
  rewrite (bind_ret _ _ _ _ _ Hp).
  (* Reset *)
  assert (heap st2 !! a = Some (ObjIter v1)) as Ha2 by (by rewrite Hh2).
  assert (Close c1 (world st2) = (None, wd2)) as Hcl2 by (by rewrite Hw2).
  rewrite (bind_ret _ _ _ _ _ (Reset_closes st2 a v1 c1 None wd2 Ha2 eq_refl Hcl2)).
  set (v3 := mkIterValue (s v1) (fn v1) (types v1) None).
  set (st3 := set_heap _ _).
  assert (heap st3 !! a = Some (ObjIter v3)) as Ha3.
  { apply list_lookup_insert_eq. by eapply lookup_lt_Some. }
  (* Init again, and the second pass *)
  rewrite (bind_ret _ _ _ _ _ (Init_opens st3 a v3 rs (Some c2) wd3 Ha3 Hs Ho2)).
  set (v4 := mkIterValue (s v3) (fn v3) (types v3) (Some c2)).
  set (st4 := set_heap _ _).
  assert (heap st4 !! a = Some (ObjIter v4)) as Ha4.
  { apply list_lookup_insert_eq. by eapply lookup_lt_Some. }
  destruct (pulls_live a v4 t c2 locs (decls st) eq_refl Hnd Hdecl (S (length l)) l st4)
    as (st5 & Hp5 & _); [lia|done|done|done|done|].
  rewrite (bind_ret _ _ _ _ _ Hp5). exists st5. unfold ret. f_equal. f_equal.
  f_equal. by rewrite take_ge by (rewrite length_app, seen_length; cbn; lia).
Qed.

(** ** Construction *)

Lemma makeIter_registered st t ors maker :
  inputs st !! t = Some maker →
  makeIter t ors st =
    (Ret (RICustom (call_maker maker ors (world st)).1),
     set_world (call_maker maker ors (world st)).2 st).
Proof.
  intros Hin. unfold makeIter, bind at 1, lookup_input. rewrite Hin.
  unfold bind, ext. by destruct (call_maker maker ors (world st)).
Qed.

Lemma makeIter_illegal st t ors :
  inputs st !! t = None → UnfoldIter t = None →
  makeIter t ors st = (Panicked (PanicfType "illegal iter type: " t), st).
Proof.
  intros Hin Hu. unfold makeIter, bind at 1, lookup_input. by rewrite Hin, Hu.
Qed.

Lemma makeReIter_legal st t ors :
  IsReIter t = true →
  makeReIter t ors st =
    (Ret (RIReIter (length (heap st))),
     set_heap (heap st ++
                 [ObjReIter (mkReIterValue t ors (VFunc t (FnReIter (length (heap st)))))])
              st).
Proof.
  intros Hre. unfold makeReIter. rewrite Hre. cbn [negb].
  unfold bind, alloc, store, ret. cbn. by rewrite heap_store_last.
Qed.

Lemma makeMultiMap_legal st ctx t ad rd win kt mts :
  UnfoldMultiMap t = Some (kt :: mts) →
  makeMultiMap ctx t ad rd win st =
    (Ret (RIMultiMap (length (heap st))),
     set_heap (heap st ++
                 [ObjMultiMap (mkMultiMapValue t kt ctx ad rd win
                                 (VFunc t (FnMultiMap (length (heap st)))))])
              st).
Proof.
  intros Hm. unfold makeMultiMap. rewrite Hm.
  unfold bind, alloc, store, ret. cbn. by rewrite heap_store_last.
Qed.

(** X8. The constructors panic on exactly the shapes they cannot serve,
    and then nothing has been allocated or changed: makeIter when the type
    has no registered maker and does not unfold as an iterator, a registered
    maker taking precedence over the shape; makeReIter when the type is not
    a re-iterable; makeMultiMap when the type does not unfold as a multimap
    or unfolds to no type at all. *)
Theorem constructors_reject_illegal_shapes st t ors ctx ad rd win :
  ((∃ p st', makeIter t ors st = (Panicked p, st')) ↔
     inputs st !! t = None ∧ UnfoldIter t = None) ∧
  ((∃ p st', makeReIter t ors st = (Panicked p, st')) ↔ IsReIter t = false) ∧
  ((∃ p st', makeMultiMap ctx t ad rd win st = (Panicked p, st')) ↔
     UnfoldMultiMap t = None ∨ UnfoldMultiMap t = Some []) ∧
  (∀ p st', makeIter t ors st = (Panicked p, st') →
     p = PanicfType "illegal iter type: " t ∧ st' = st) ∧
  (∀ p st', makeReIter t ors st = (Panicked p, st') →
     p = PanicfType "illegal re-iter type: " t ∧ st' = st) ∧
  (∀ p st', makeMultiMap ctx t ad rd win st = (Panicked p, st') →
     (p = PanicfType "illegal multimap type: " t ∨ p = index_out_of_range) ∧ st' = st).
Proof.
  assert (∀ p st', makeIter t ors st = (Panicked p, st') →
            inputs st !! t = None ∧ UnfoldIter t = None ∧
            p = PanicfType "illegal iter type: " t ∧ st' = st) as HI.
  { intros p st'. destruct (inputs st !! t) as [maker|] eqn:Hin.
    { by rewrite (makeIter_registered _ _ _ _ Hin). }
    destruct (UnfoldIter t) as [ts|] eqn:Hu.
    { by rewrite (makeIter_fresh _ _ _ _ Hin Hu). }
    rewrite (makeIter_illegal _ _ _ Hin Hu). by intros [= <- <-]. }
  assert (∀ p st', makeReIter t ors st = (Panicked p, st') →
            IsReIter t = false ∧
            p = PanicfType "illegal re-iter type: " t ∧ st' = st) as HR.
  { intros p st'. destruct (IsReIter t) eqn:Hre.
    { by rewrite (makeReIter_legal _ _ _ Hre). }
    unfold makeReIter. rewrite Hre. by intros [= <- <-]. }
  assert (∀ p st', makeMultiMap ctx t ad rd win st = (Panicked p, st') →
            (UnfoldMultiMap t = None ∨ UnfoldMultiMap t = Some []) ∧
            (p = PanicfType "illegal multimap type: " t ∨ p = index_out_of_range) ∧
            st' = st) as HM.
  { intros p st'. destruct (UnfoldMultiMap t) as [[|kt mts]|] eqn:Hm.
    - unfold makeMultiMap. rewrite Hm. intros [= <- <-]. auto.
    - by rewrite (makeMultiMap_legal _ _ _ _ _ _ _ _ Hm).
    - unfold makeMultiMap. rewrite Hm. intros [= <- <-]. auto. }
  split; [|split; [|split; [|split; [|split]]]].
  - split.
    + intros (p & st' & H). by destruct (HI p st' H) as (? & ? & _).
    + intros [Hin Hu]. eexists _, _. by apply makeIter_illegal.
  - split.
    + intros (p & st' & H). by destruct (HR p st' H) as (? & _).
    + intros Hre. eexists _, _. unfold makeReIter. by rewrite Hre.
  - split.
    + intros (p & st' & H). by destruct (HM p st' H) as (? & _).
    + intros [Hm|Hm]; eexists _, _; unfold makeMultiMap; by rewrite Hm.
  - intros p st' H. by destruct (HI p st' H) as (_ & _ & ? & ?).
  - intros p st' H. by destruct (HR p st' H) as (_ & ? & ?).
  - intros p st' H. by destruct (HM p st' H) as (_ & ? & ?).
Qed.

(** ** The registry, in general *)

Lemma last_registered_foldl (regs : list (rtype * Maker)) t :
  ∀ m : gmap rtype Maker,
    foldl (λ m p, <[p.1:=p.2]> m) m regs !! t = last_registered regs t (m !! t).
Proof.
  induction regs as [|[t' maker] regs IH]; intros m; [done|].
  cbn [foldl last_registered]. rewrite IH. cbn. f_equal.
  destruct (decide (t' = t)) as [->|Hne].
  - by rewrite lookup_insert_eq.
  - by rewrite lookup_insert_ne.
Qed.

Lemma last_registered_is_Some (regs : list (rtype * Maker)) t :
  ∀ prev, is_Some (last_registered regs t prev) ↔ t ∈ regs.*1 ∨ is_Some prev.
Proof.
  induction regs as [|[t' maker] regs IH]; intros prev; cbn.
  - split; [by right|]. intros [Hin|?]; [|done]. by apply elem_of_nil in Hin.
  - rewrite IH, elem_of_cons. destruct (decide (t' = t)) as [->|Hne].
    + split; [|by right; eexists]. intros _. by left; left.
    + split; intros [?|?]; auto. destruct H as [->|?]; [done|auto].
Qed.

(** X9. After any run of registrations the registry holds for a type the
    maker of the last registration for that type in the run, and what it
    held before if the run has none; IsInputRegistered says yes exactly for
    the types registered in the run or before it.  Registering touches
    nothing but the registry. *)
Theorem register_all_last_registration regs st t :
  ∃ st',
    register_all regs st = (Ret tt, st') ∧
    inputs st' !! t = last_registered regs t (inputs st !! t) ∧
    (IsInputRegistered t st').1 =
      Ret (bool_decide (t ∈ regs.*1 ∨ is_Some (inputs st !! t))) ∧
    world st' = world st ∧ heap st' = heap st ∧ vars st' = vars st.
Proof.
  eexists. split; [apply register_all_inputs|]. cbn.
  split; [apply last_registered_foldl|]. split; [|done].
  f_equal. apply bool_decide_ext.
  rewrite last_registered_foldl. apply last_registered_is_Some.
Qed.

(** ** Failures the factory and the multimap do not report *)

(** makeIter, Init and Value in a row when the stream does not open: the
    error of Init is dropped and the iterator is handed out without a
    cursor. *)
Lemma spawn_iter_unopened st t ts rs oc err wd :
  inputs st !! t = None → UnfoldIter t = Some ts →
  Open rs (world st) = ((oc, Some err), wd) →
  (iter <- makeIter t (Some rs) ;; Init iter ;;; f <- Value iter ;; ret [f]) st =
    (Ret [VFunc t (FnIter (length (heap st)))],
     set_heap (heap st ++
                 [ObjIter (mkIterValue (Some rs) (VFunc t (FnIter (length (heap st))))
                             ts None)])
              (set_world wd st)).
Proof.
  intros Hin Hu Ho.
  rewrite (bind_ret _ _ _ _ _ (makeIter_fresh st t ts (Some rs) Hin Hu)).
  set (v := mkIterValue _ _ _ _). set (st1 := set_heap _ st).
  assert (heap st1 !! length (heap st) = Some (ObjIter v)) as Ha.
  { cbn. by rewrite lookup_app_r, Nat.sub_diag by lia. }
  cbn [Init Value].
  rewrite (bind_ret _ _ _ _ _
             (iterValue_Init_open_error_at st1 (length (heap st)) v rs oc err wd
                Ha eq_refl Ho)).
  erewrite (bind_ret (iterValue_Value _)).
  2:{ apply Value_iter_at. exact Ha. }
  done.
Qed.

(** X10. The factory's callable drops the error of Init.  When the stream
    does not open it still returns the callable of a new iterator, which
    has no cursor: the failure shows only at the first call of that
    callable, as the panic for a missing Init. *)
Theorem reIterValue_invoke_open_error st a (v : reIterValue) rs t ts oc err wd
    args args' :
  heap st !! a = Some (ObjReIter v) → ri_s v = Some rs →
  Out0 (ri_t v) = Some t → inputs st !! t = None → UnfoldIter t = Some ts →
  Open rs (world st) = ((oc, Some err), wd) →
  ∃ st1,
    reIterValue_invoke a args st = (Ret [VFunc t (FnIter (length (heap st)))], st1) ∧
    call (VFunc t (FnIter (length (heap st)))) args' st1 =
      (Panicked (PanicString "Init() not called"), st1).
Proof.
  intros Ha Hs Ht Hin Hu Ho. eexists. split.
  - unfold reIterValue_invoke.
    rewrite (bind_ret _ _ _ _ _ (load_reiter_at _ _ _ Ha)).
    rewrite (bind_ret _ _ _ _ _ (out0_at _ _ _ Ht)), Hs.
    by eapply spawn_iter_unopened.
  - cbn [call].
    eapply invoke_uninitialised;
      [cbn; by rewrite lookup_app_r, Nat.sub_diag by lia|done].
Qed.

(** X11. When the adapter gives back no stream, as adapters do along with
    an error, the multimap's callable does not return: it allocates an
    iterator over the nil stream and panics in its Init with a nil
    dereference. *)
Theorem multiMapValue_invoke_nil_stream st a (v : multiMapValue) t ts k oerr wd :
  heap st !! a = Some (ObjMultiMap v) →
  Out0 (mm_t v) = Some t → inputs st !! t = None → UnfoldIter t = Some ts →
  NewKeyedIterable (adapter v) (mm_ctx v) (reader v) (w v)
    (VReflect (Convert (VReflect k) (keyType v))) (world st) = ((None, oerr), wd) →
  multiMapValue_invoke a [k] st =
    (Panicked nil_dereference,
     set_heap (heap st ++
                 [ObjIter (mkIterValue None (VFunc t (FnIter (length (heap st)))) ts None)])
              (set_world wd st)).
Proof.
  intros Ha Ht Hin Hu Hnew. unfold multiMapValue_invoke.
  rewrite (bind_ret _ _ _ _ _ (load_multimap_at _ _ _ Ha)).
  rewrite (bind_ret _ _ _ _ _ (ext_at _ _ _ _ Hnew)).
  rewrite (bind_ret _ _ _ _ _ (out0_at _ _ _ Ht)). cbn [fst].
  rewrite (bind_ret _ _ _ _ _ (makeIter_fresh (set_world wd st) t ts None Hin Hu)).
  set (v' := mkIterValue _ _ _ _). set (st1 := set_heap _ _).
  assert (heap st1 !! length (heap st) = Some (ObjIter v')) as Ha'.
  { cbn. by rewrite lookup_app_r, Nat.sub_diag by lia. }
  cbn [Init]. unfold bind at 1. unfold iterValue_Init.
  by rewrite (bind_ret _ _ _ _ _ (load_iter_at st1 _ v' Ha')).
Qed.

(** X12. Called with no argument or with more than one, the multimap's
    callable panics before it asks the adapter: nothing has changed. *)
Theorem multiMapValue_invoke_wrong_arity st a (v : multiMapValue) args :
  heap st !! a = Some (ObjMultiMap v) → length args ≠ 1 →
  multiMapValue_invoke a args st =
    (Panicked (PanicfArgs "wanted one key value, got " args), st).
Proof.
  intros Ha Hlen. unfold multiMapValue_invoke.
  rewrite (bind_ret _ _ _ _ _ (load_multimap_at _ _ _ Ha)).
  by destruct args as [|x [|y args]].
Qed.

(** ** From construction to the loop *)

(** X13. A factory built by makeReIter on a re-iterable type, used as the
    harness uses it: Init, Value, a call of the callable, Reset, and then a
    loop over the iterator callable that the call gave.  Init and Reset of
    the factory return no error, and the Reset does not reach the iterator
    the factory handed out: the loop still sees all the records of the
    stream, records that convert to the types of the slots, and then its
    end. *)
Theorem makeReIter_pass st t it ts rs l locs :
  IsReIter t = true → Out0 t = Some it →
  inputs st !! it = None → UnfoldIter it = Some ts →
  restartable rs l →
  Forall (conforms (decls st) ts) l →
  NoDup locs → declared (decls st) locs ts →
  ∃ st',
    (r <- makeReIter t (Some rs) ;;
     e1 <- Init r ;;
     f <- Value r ;;
     g <- call f [] ;;
     e2 <- Reset r ;;
     obs <- pulls (S (length l)) (default VNil (head g)) locs ;;
     ret (e1, e2, obs)) st =
      (Ret (None, None, seen ts l ++ [None]), st').
Proof.
  intros Hre Ht Hin Hu Hrs Hconf Hnd Hdecl.
  rewrite (bind_ret _ _ _ _ _ (makeReIter_legal st t (Some rs) Hre)).
  set (a := length (heap st)).
  set (v := mkReIterValue t (Some rs) (VFunc t (FnReIter a))).
  set (st1 := set_heap _ st).
  assert (heap st1 !! a = Some (ObjReIter v)) as Ha.
  { cbn. by rewrite lookup_app_r, Nat.sub_diag by lia. }
  cbn [Init Value Reset]. unfold reIterValue_Init, reIterValue_Reset.
  unfold bind at 1. unfold ret at 1. unfold reIterValue_Value.
  rewrite (bind_ret _ (λ f, _) st1 (ri_fn v) st1)
    by (by rewrite (bind_ret _ _ _ _ _ (load_reiter_at _ _ _ Ha))).
  destruct (Hrs (world st1)) as (c & wd & Ho & Hd & _).
  cbn [ri_fn v call].
  rewrite (bind_ret _ _ _ _ _
             (reIterValue_invoke_spawns st1 a v rs it ts c wd [] Ha eq_refl Ht Hin Hu Ho)).
  set (a' := length (heap st1)).
  set (v' := mkIterValue (Some rs) (VFunc it (FnIter a')) ts (Some c)).
  set (st2 := set_heap _ _).
  assert (heap st2 !! a' = Some (ObjIter v')) as Ha'.
  { cbn. by rewrite lookup_app_r, Nat.sub_diag by lia. }
  unfold bind at 1. unfold ret at 1. cbn [head default].
  destruct (pulls_live a' v' it c locs (decls st) eq_refl Hnd Hdecl (S (length l)) l st2)
    as (st3 & Hp & _); [lia|done|done|done|done|].
  rewrite (bind_ret _ _ _ _ _ Hp). exists st3. unfold ret. f_equal. f_equal. f_equal.
  by rewrite take_ge by (rewrite length_app, seen_length; cbn; lia).
Qed.

Lemma multiMapValue_invoke_spawns st a (v : multiMapValue) t ts k rs oerr wd1 c wd2 :
  heap st !! a = Some (ObjMultiMap v) →
  Out0 (mm_t v) = Some t → inputs st !! t = None → UnfoldIter t = Some ts →
  NewKeyedIterable (adapter v) (mm_ctx v) (reader v) (w v)
    (VReflect (Convert (VReflect k) (keyType v))) (world st) = ((Some rs, oerr), wd1) →
  Open rs wd1 = ((Some c, None), wd2) →
  multiMapValue_invoke a [k] st =
    (Ret [VFunc t (FnIter (length (heap st)))],
     set_heap (heap st ++
                 [ObjIter (mkIterValue (Some rs) (VFunc t (FnIter (length (heap st))))
                             ts (Some c))])
              (set_world wd2 (set_world wd1 st))).
Proof.
  intros Ha Ht Hin Hu Hnew Ho. unfold multiMapValue_invoke.
  rewrite (bind_ret _ _ _ _ _ (load_multimap_at _ _ _ Ha)).
  rewrite (bind_ret _ _ _ _ _ (ext_at _ _ _ _ Hnew)).
  rewrite (bind_ret _ _ _ _ _ (out0_at _ _ _ Ht)). cbn [fst].
  by apply (spawn_iter (set_world wd1 st)).
Qed.

(** X14. A multimap built by makeMultiMap, looked up twice.  The key type
    is the first type the analyser unfolds.  A lookup gives Convert the
    argument as the [reflect.Value] it is and asks the adapter for the
    [reflect.Value] of what Convert returns.  Each lookup asks the adapter
    anew, for the same key as well, and gives an iterator of its own: with
    an adapter whose streams are apart, the two callables, stepped in any
    order, see each the records the adapter has for the key it was asked
    for, from the first to the end of the stream. *)
Theorem makeMultiMap_lookups_apart st ctx t kt mts it ts ad rd win stored
    k1 k2 sched locs1 locs2 :
  UnfoldMultiMap t = Some (kt :: mts) → Out0 t = Some it →
  inputs st !! it = None → UnfoldIter it = Some ts →
  independent_cursors → serves_apart ad stored →
  let key1 := VReflect (Convert (VReflect k1) kt) in
  let key2 := VReflect (Convert (VReflect k2) kt) in
  Forall (conforms (decls st) ts) (stored win key1) →
  Forall (conforms (decls st) ts) (stored win key2) →
  NoDup locs1 → declared (decls st) locs1 ts →
  NoDup locs2 → declared (decls st) locs2 ts →
  length (filter (eq true) sched) = S (length (stored win key1)) →
  length (filter (eq false) sched) = S (length (stored win key2)) →
  ∃ st',
    (r <- makeMultiMap ctx t ad rd win ;;
     f <- Value r ;;
     g1 <- call f [k1] ;;
     g2 <- call f [k2] ;;
     run_sched sched (default VNil (head g1)) locs1
                     (default VNil (head g2)) locs2) st =
      (Ret (seen ts (stored win key1) ++ [None],
            seen ts (stored win key2) ++ [None]), st').
Proof.
  intros Hm Ht Hin Hu Hind Hserve key1 key2 Hcf1 Hcf2 Hnd1 Hdecl1 Hnd2 Hdecl2 Hn1 Hn2.
  rewrite (bind_ret _ _ _ _ _ (makeMultiMap_legal st ctx t ad rd win kt mts Hm)).
  set (a := length (heap st)).
  set (v := mkMultiMapValue t kt ctx ad rd win (VFunc t (FnMultiMap a))).
  set (st1 := set_heap _ st).
  assert (heap st1 !! a = Some (ObjMultiMap v)) as Ha.
  { cbn. by rewrite lookup_app_r, Nat.sub_diag by lia. }
  cbn [Value]. unfold multiMapValue_Value.
  rewrite (bind_ret _ (λ f, _) st1 (mm_fn v) st1)
    by (by rewrite (bind_ret _ _ _ _ _ (load_multimap_at _ _ _ Ha))).
  cbn [mm_fn v call].
  (* the first lookup *)
  destruct (Hserve ctx rd win key1 (world st1))
    as (rs1 & err1 & wd1 & c1 & wd2 & Hnew1 & Ho1 & Hd1 & _).
  rewrite (bind_ret _ _ _ _ _
             (multiMapValue_invoke_spawns st1 a v it ts k1 rs1 err1 wd1 c1 wd2
                Ha Ht Hin Hu Hnew1 Ho1)).
  set (a1 := length (heap st1)).
  set (v1 := mkIterValue (Some rs1) (VFunc it (FnIter a1)) ts (Some c1)).
  set (st2 := set_heap _ _).
  assert (heap st2 !! a = Some (ObjMultiMap v)) as Ha2.
  { cbn. by apply lookup_app_l_Some. }
  (* the second lookup *)
  destruct (Hserve ctx rd win key2 (world st2))
    as (rs2 & err2 & wd3 & c2 & wd4 & Hnew2 & Ho2 & Hd2 & Hframe).
  destruct (Hframe c1 _ Hd1) as [Hne Hd1'].
  rewrite (bind_ret _ _ _ _ _
             (multiMapValue_invoke_spawns st2 a v it ts k2 rs2 err2 wd3 c2 wd4
                Ha2 Ht Hin Hu Hnew2 Ho2)).
  set (a2 := length (heap st2)).
  set (v2 := mkIterValue (Some rs2) (VFunc it (FnIter a2)) ts (Some c2)).
  set (st3 := set_heap _ _).
  assert (heap st3 !! a1 = Some (ObjIter v1)) as Ha13.
  { cbn. apply lookup_app_l_Some. by rewrite lookup_app_r, Nat.sub_diag by lia. }
  assert (heap st3 !! a2 = Some (ObjIter v2)) as Ha23.
  { cbn. by rewrite lookup_app_r, Nat.sub_diag by lia. }
  cbn [head default].
  (* the two iterators in turns *)
  destruct (run_sched_live a1 a2 v1 v2 it it c1 c2 locs1 locs2 (decls st) Hind
              eq_refl eq_refl Hnd1 Hdecl1 Hnd2 Hdecl2 sched
              (Some (stored win key1)) (Some (stored win key2)) st3)
    as (st4 & Hrun); try done.
  { cbn. rewrite length_app, seen_length. cbn. lia. }
  { cbn. rewrite length_app, seen_length. cbn. lia. }
  by exists st4.
Qed.

(** ** What no operation undoes *)

Local Abbreviation keeps m := (∀ st, extends st (m st).2).

Lemma same_shape_refl o : same_shape o o.
Proof. by destruct o. Qed.

Lemma same_shape_trans o1 o2 o3 :
  same_shape o1 o2 → same_shape o2 o3 → same_shape o1 o3.
Proof.
  destruct o1, o2; cbn; try congruence; destruct o3; cbn; try congruence.
  intros (-> & -> & ->). done.
Qed.

Lemma extends_refl st : extends st st.
Proof. split; [done|]. intros a o Ho. exists o. split; [done|apply same_shape_refl]. Qed.

Lemma extends_trans st1 st2 st3 : extends st1 st2 → extends st2 st3 → extends st1 st3.
Proof.
  intros [Hi1 Hh1] [Hi2 Hh2]. split; [congruence|].
  intros a o Ho. destruct (Hh1 a o Ho) as (o2 & Ho2 & Hs2).
  destruct (Hh2 a o2 Ho2) as (o3 & Ho3 & Hs3).
  exists o3. split; [done|]. by eapply same_shape_trans.
Qed.

(** A state that differs in the cursor field of one iterator, in the
    collaborators' state and in the variables. *)
Lemma extends_set_cur st a v oc wd vs :
  heap st !! a = Some (ObjIter v) →
  extends st (set_vars vs (set_heap
                (<[a:=ObjIter (mkIterValue (s v) (fn v) (types v) oc)]> (heap st))
                (set_world wd st))).
Proof.
  intros Ha. split; [done|]. intros a' o Ho. cbn.
  destruct (decide (a = a')) as [<-|Hne].
  - rewrite list_lookup_insert_eq by (by eapply lookup_lt_Some).
    eexists. split; [done|]. by pose proof (eq_trans (eq_sym Ha) Ho) as [= <-].
  - rewrite list_lookup_insert_ne by done.
    exists o. split; [done|apply same_shape_refl].
Qed.

Lemma extends_same_heap st st' :
  inputs st' = inputs st → heap st' = heap st → extends st st'.
Proof.
  intros Hi Hh. split; [done|]. intros a o Ho. rewrite Hh.
  exists o. split; [done|apply same_shape_refl].
Qed.

Lemma extends_alloc st o :
  extends st (set_heap (heap st ++ [o]) st).
Proof.
  split; [done|]. intros a o' Ho. cbn.
  exists o'. split; [by apply lookup_app_l_Some|apply same_shape_refl].
Qed.

Lemma keeps_bind {A B} (m : M A) (k : A → M B) :
  keeps m → (∀ x, keeps (k x)) → keeps (bind m k).
Proof.
  intros Hm Hk st. unfold bind. specialize (Hm st).
  destruct (m st) as [[x|p] st1]; [|done].
  eapply extends_trans; [exact Hm|apply Hk].
Qed.

Lemma keeps_ext {A} (f : World → A * World) : keeps (ext f).
Proof.
  intros st. unfold ext. destruct (f (world st)). by apply extends_same_heap.
Qed.

Lemma keeps_pure {A} (m : M A) : (∀ st, (m st).2 = st) → keeps m.
Proof. intros H st. rewrite H. apply extends_refl. Qed.

Lemma keeps_makeIter t ors : keeps (makeIter t ors).
Proof.
  intros st. destruct (inputs st !! t) as [maker|] eqn:Hin.
  { rewrite (makeIter_registered _ _ _ _ Hin). by apply extends_same_heap. }
  destruct (UnfoldIter t) as [ts|] eqn:Hu.
  - rewrite (makeIter_fresh _ _ _ _ Hin Hu). apply extends_alloc.
  - rewrite (makeIter_illegal _ _ _ Hin Hu). apply extends_refl.
Qed.

Lemma keeps_iterValue_Init a : keeps (iterValue_Init a).
Proof.
  intros st. unfold iterValue_Init. unfold bind at 1.
  destruct (load_iter a st) as [[v|p] st1] eqn:Hl;
    pose proof (load_iter_pure _ _ _ _ Hl) as ->; [|apply extends_refl].
  assert (heap st !! a = Some (ObjIter v)) as Ha.
  { unfold load_iter, load, bind in Hl.
    destruct (heap st !! a) as [[]|]; by inversion Hl. }
  destruct (s v) as [rs|] eqn:Hs; [|apply extends_refl].
  unfold bind at 1, ext. destruct (Open rs (world st)) as [[oc [err|]] wd]; cbn.
  - by apply extends_same_heap.
  - pose proof (extends_set_cur st a v oc wd (vars st) Ha) as H.
    rewrite Hs in H. exact H.
Qed.

Lemma keeps_iterValue_Reset a : keeps (iterValue_Reset a).
Proof.
  intros st. unfold iterValue_Reset. unfold bind at 1.
  destruct (load_iter a st) as [[v|p] st1] eqn:Hl;
    pose proof (load_iter_pure _ _ _ _ Hl) as ->; [|apply extends_refl].
  assert (heap st !! a = Some (ObjIter v)) as Ha.
  { unfold load_iter, load, bind in Hl.
    destruct (heap st !! a) as [[]|]; by inversion Hl. }
  destruct (cur v) as [c|]; [|apply extends_refl].
  unfold bind at 1, ext. destruct (Close c (world st)) as [[err|] wd]; cbn.
  - by apply extends_same_heap.
  - replace (set_heap _ _) with
      (set_vars (vars st) (set_heap
         (<[a:=ObjIter (mkIterValue (s v) (fn v) (types v) None)]> (heap st))
         (set_world wd st))) by done.
    by apply extends_set_cur.
Qed.

Lemma keeps_iterValue_invoke a args : keeps (iterValue_invoke a args).
Proof.
  intros st. unfold iterValue_invoke. unfold bind at 1.
  destruct (load_iter a st) as [[v|p] st1] eqn:Hl;
    pose proof (load_iter_pure _ _ _ _ Hl) as ->; [|apply extends_refl].
  destruct (cur v) as [c|]; [|apply extends_refl].
  unfold bind at 1, ext.
  destruct (Read c (world st)) as [[elm [err|]] wd]; cbn [fst snd].
  - destruct (decide (err = EOF)); by apply extends_same_heap.
  - unfold bind.
    destruct (fill elm args 0 true (types v) (set_world wd st))
      as [[[]|p] st'] eqn:Hf;
      apply fill_frame in Hf as (_ & Hin & Hh & _);
      by apply extends_same_heap.
Qed.

Lemma keeps_loaded {A B} (ld : addr → M A) (f : A → B) a :
  (∀ st o st1, ld a st = (o, st1) → st1 = st) →
  keeps (v <- ld a ;; ret (f v)).
Proof.
  intros Hpure st. unfold bind.
  destruct (ld a st) as [[v|p] st1] eqn:Hl; apply Hpure in Hl as ->;
    apply extends_refl.
Qed.

Lemma load_pure a st o st1 : load a st = (o, st1) → st1 = st.
Proof. unfold load. destruct (heap st !! a); by intros [= _ <-]. Qed.

Lemma load_reiter_pure a st o st1 : load_reiter a st = (o, st1) → st1 = st.
Proof.
  unfold load_reiter, load, bind, ret, panic.
  destruct (heap st !! a) as [[]|]; by intros [= _ <-].
Qed.

Lemma load_fixed_pure a st o st1 : load_fixed a st = (o, st1) → st1 = st.
Proof.
  unfold load_fixed, load, bind, ret, panic.
  destruct (heap st !! a) as [[]|]; by intros [= _ <-].
Qed.

Lemma load_multimap_pure a st o st1 : load_multimap a st = (o, st1) → st1 = st.
Proof.
  unfold load_multimap, load, bind, ret, panic.
  destruct (heap st !! a) as [[]|]; by intros [= _ <-].
Qed.

Lemma keeps_Init r : keeps (Init r).
Proof.
  destruct r as [a|a|a|a|c]; cbn [Init];
    [by apply keeps_pure|apply keeps_iterValue_Init|by apply keeps_pure
    |by apply keeps_pure|apply keeps_ext].
Qed.

Lemma keeps_Reset r : keeps (Reset r).
Proof.
  destruct r as [a|a|a|a|c]; cbn [Reset];
    [by apply keeps_pure|apply keeps_iterValue_Reset|by apply keeps_pure
    |by apply keeps_pure|apply keeps_ext].
Qed.

Lemma keeps_Value r : keeps (Value r).
Proof.
  destruct r as [a|a|a|a|c]; cbn [Value].
  - apply (keeps_loaded load_reiter ri_fn), load_reiter_pure.
  - apply (keeps_loaded load_iter fn), load_iter_pure.
  - apply (keeps_loaded load_fixed val), load_fixed_pure.
  - apply (keeps_loaded load_multimap mm_fn), load_multimap_pure.
  - by apply keeps_pure.
Qed.

Lemma keeps_out0 t : keeps (out0 t).
Proof. apply keeps_pure. intros st. unfold out0. by destruct (Out0 t). Qed.

Lemma keeps_spawn t ors :
  keeps (iter <- makeIter t ors ;; Init iter ;;; f <- Value iter ;; ret [f]).
Proof.
  apply keeps_bind; [apply keeps_makeIter|]. intros iter.
  apply keeps_bind; [apply keeps_Init|]. intros _.
  apply keeps_bind; [apply keeps_Value|]. intros f. by apply keeps_pure.
Qed.

Lemma keeps_call f args : keeps (call f args).
Proof.
  destruct f as [| | | | | |t [a|a|a]| |]; cbn [call]; try by apply keeps_pure.
  - apply keeps_iterValue_invoke.
  - unfold reIterValue_invoke.
    apply keeps_bind.
    { intros st. destruct (load_reiter a st) as [o st1] eqn:Hl.
      apply load_reiter_pure in Hl as ->. apply extends_refl. }
    intros v. apply keeps_bind; [apply keeps_out0|]. intros t'. apply keeps_spawn.
  - unfold multiMapValue_invoke.
    apply keeps_bind.
    { intros st. destruct (load_multimap a st) as [o st1] eqn:Hl.
      apply load_multimap_pure in Hl as ->. apply extends_refl. }
    intros v. destruct args as [|k [|k' args]]; try by apply keeps_pure.
    apply keeps_bind; [apply keeps_ext|]. intros r.
    apply keeps_bind; [apply keeps_out0|]. intros t'. apply keeps_spawn.
Qed.

(** X15. No operation of the package but RegisterInput changes the
    registry, and none removes an object, moves it or changes what was fixed
    when it was built: after a constructor, Init, Value, Reset or a call of
    any callable, however it ends, every object is at its address, a
    factory, a fixed value and a multimap unchanged, an iterator with its
    stream, its callable and its slot types, only its cursor field may
    differ. *)
Theorem operations_extend st :
  (∀ f args, extends st (call f args st).2) ∧
  (∀ r, extends st (Init r st).2 ∧ extends st (Value r st).2 ∧
        extends st (Reset r st).2) ∧
  (∀ t ors, extends st (makeIter t ors st).2 ∧ extends st (makeReIter t ors st).2) ∧
  (∀ ctx t ad rd win, extends st (makeMultiMap ctx t ad rd win st).2).
Proof.
  split; [intros; apply keeps_call|].
  split; [intros r; split; [apply keeps_Init|split; [apply keeps_Value|apply keeps_Reset]]|].
  split.
  - intros t ors. split; [apply keeps_makeIter|].
    destruct (IsReIter t) eqn:Hre.
    + rewrite (makeReIter_legal _ _ _ Hre). apply extends_alloc.
    + unfold makeReIter. rewrite Hre. apply extends_refl.
  - intros ctx t ad rd win.
    destruct (UnfoldMultiMap t) as [[|kt mts]|] eqn:Hm.
    + unfold makeMultiMap. rewrite Hm. apply extends_refl.
    + rewrite (makeMultiMap_legal _ _ _ _ _ _ _ _ Hm). apply extends_alloc.
    + unfold makeMultiMap. rewrite Hm. apply extends_refl.
Qed.

(** ** A value the slot does not take *)




End Theorems.

(** * The properties on the in-memory collaborators *)

(** ** The in-memory streams meet the stream contract *)

Lemma mem_delivers l : ∀ (wd : list MemCursor) (c : nat) ce,
  wd !! c = Some (mkMemCursor l None ce) → delivers (C:=mem) c l wd.
Proof.
  induction l as [|e l IH]; intros wd c ce Hc; cbn; unfold mem_Read; rewrite Hc; cbn.
  - by eexists _, _.
  - eexists. split; [done|]. apply (IH _ c ce).
    apply list_lookup_insert_eq. by eapply lookup_lt_Some.
Qed.

Lemma mem_delivers_known l (wd : list MemCursor) (c : nat) :
  delivers (C:=mem) c l wd → is_Some (wd !! c).
Proof.
  destruct (wd !! c) as [cu|] eqn:Hc; [by eexists|].
  destruct l as [|e l]; cbn; unfold mem_Read; rewrite Hc.
  - by intros (x & wd' & [=]).
  - by intros (wd' & [=] & _).
Qed.

Lemma mem_delivers_local l : ∀ (wd wd' : list MemCursor) (c : nat),
  wd' !! c = wd !! c → delivers (C:=mem) c l wd → delivers (C:=mem) c l wd'.
Proof.
  induction l as [|e l IH]; intros wd wd' c Heq; cbn; unfold mem_Read; rewrite Heq.
  - destruct (wd !! c) as [cu|]; [|by intros (x & wd1 & [=])].
    destruct (rest cu); intros (x & wd1 & [= _ Hdef _]). eexists _, _. by rewrite Hdef.
  - destruct (wd !! c) as [cu|] eqn:Hc; [|by intros (wd1 & [=] & _)].
    destruct (rest cu) as [|e' r]; intros (wd1 & [= -> <-] & Hd).
    eexists. split; [done|]. revert Hd. apply IH.
    rewrite !list_lookup_insert_eq; [done| |].
    + by eapply lookup_lt_Some.
    + apply lookup_lt_is_Some. rewrite Heq. by eexists.
Qed.

Lemma mem_Read_other (wd : list MemCursor) (c c' : nat) :
  c ≠ c' → (mem_Read c wd).2 !! c' = wd !! c'.
Proof.
  intros Hne. unfold mem_Read. destruct (wd !! c) as [cu|]; [|done].
  destruct (rest cu); [done|]. cbn. by apply list_lookup_insert_ne.
Qed.

Lemma mem_independent : independent_cursors (C:=mem).
Proof.
  intros c c' l wd Hne. apply mem_delivers_local. by apply mem_Read_other.
Qed.

Lemma mem_restartable l ce :
  restartable (C:=mem) (mkMemReStream l None None ce) l.
Proof.
  intros wd. eexists _, _. split; [done|]. split.
  - apply (mem_delivers l _ _ ce). cbn. by rewrite lookup_app_r, Nat.sub_diag by lia.
  - intros c' l' Hd. pose proof (mem_delivers_known _ _ _ Hd) as Hk.
    apply lookup_lt_is_Some in Hk. split; [cbn in *; lia|].
    revert Hd. apply mem_delivers_local. by apply lookup_app_l.
Qed.

(** ** The properties at concrete inputs *)

(** The typing side conditions on concrete variables and records. *)
Local Ltac typed :=
  unfold declared, conforms; repeat first [ reflexivity | constructor ].

(** C1 on the three records of [three]. *)
Lemma iterValue_pass_N_then_false_witness :
  ∃ st1 f st2,
    iterValue_Init (C:=mem) 0 fresh_iter = (Ret None, st1) ∧
    iterValue_Value 0 st1 = (Ret f, st1) ∧
    call_n 4 f [VPtr 10; VPtr 11; VPtr 12] st1 =
      ([Ret [VBool true]; Ret [VBool true]; Ret [VBool true]; Ret [VBool false]], st2) ∧
    world st2 = reads (C:=mem) 4 0 [mkMemCursor [rec7; rec8; rec9] None None].
Proof.
  apply (iterValue_pass_N_then_false (C:=mem) fresh_iter 0
           (mkIterValue (C:=mem) (Some three) (VFunc iter_ekv (FnIter 0))
              [TEventTime; TInt; TString] None)
           iter_ekv three 0 [mkMemCursor [rec7; rec8; rec9] None None]
           [rec7; rec8; rec9] [10; 11; 12]).
  - reflexivity.
  - reflexivity.
  - reflexivity.
  - reflexivity.
  - apply (mem_delivers _ _ _ None). reflexivity.
  - typed.
  - typed.
Defined.

(** C2 on the record with primary value 7, secondary value "x" and
    timestamp 1000. *)
Lemma iterValue_invoke_maps_fields_witness :
  (iterValue_invoke (C:=mem) 0 [VPtr 10; VPtr 11; VPtr 12] open_iter).1 =
    Ret [VBool true]
  ∧ (λ lo, vars (iterValue_invoke (C:=mem) 0 [VPtr 10; VPtr 11; VPtr 12] open_iter).2
             !! lo) <$> [10; 11; 12] =
      [Some (VTime 1000); Some (VInt 7); Some (VString "x")]
  ∧ mapped (C:=mem) rec7 [TEventTime; TInt; TString] =
      [VTime 1000; VInt 7; VString "x"]
  ∧ mapped (C:=mem) rec7 [TInt] = [VInt 7].
Proof.
  destruct (iterValue_invoke_maps_fields (C:=mem) open_iter 0
              (mkIterValue (C:=mem) (Some three) (VFunc iter_ekv (FnIter 0))
                 [TEventTime; TInt; TString] (Some 0))
              0 rec7 [mkMemCursor [rec8; rec9] None None] [10; 11; 12]
              eq_refl eq_refl eq_refl ltac:(typed) ltac:(typed))
    as (H1 & H2 & H3 & H4).
  split; [|split; [|split]].
  - exact (f_equal fst H1).
  - apply H2. exact (bool_decide_unpack (NoDup [10; 11; 12]) I).
  - apply (H3 TInt TString); discriminate.
  - apply (H4 TInt); discriminate.
Defined.

(** C3 on the second read of [broken]. *)
Lemma iterValue_invoke_broken_stream_witness :
  ErrorString "connection reset" ≠ EOF ∧
  iterValue_invoke (C:=mem) 0 [VPtr 10] broken_iter =
    (Panicked (PanicError (Wrap (ErrorString "connection reset") "broken stream")),
     broken_iter)
  ∧ ∀ r, (iterValue_invoke (C:=mem) 0 [VPtr 10] broken_iter).1 ≠ Ret r.
Proof.
  split; [discriminate|].
  apply (iterValue_invoke_broken_stream (C:=mem) broken_iter 0
           (mkIterValue (C:=mem) (Some broken) (VFunc iter_k (FnIter 0)) [TInt] (Some 0))
           0 None (ErrorString "connection reset")
           [mkMemCursor [] (Some (ErrorString "connection reset")) None]
           [VPtr 10]).
  - reflexivity.
  - reflexivity.
  - reflexivity.
  - discriminate.
Defined.

(** C4: right after makeIter, with no cursor open, Value returns the
    callable and does not panic. *)
Lemma Value_before_Init_does_not_panic :
  ∃ v, heap fresh_iter !! 0 = Some (ObjIter v) ∧ cur v = None ∧
       iterValue_Value (C:=mem) 0 fresh_iter = (Ret (VFunc iter_ekv (FnIter 0)), fresh_iter) ∧
       ∀ p st', iterValue_Value (C:=mem) 0 fresh_iter ≠ (Panicked p, st').
Proof.
  eexists. split; [reflexivity|]. split; [reflexivity|]. split; [reflexivity|].
  intros p st'. discriminate.
Qed.

(** C4 as amended, on the same iterator. *)
Lemma iterValue_misuse_before_Init_witness :
  iterValue_Reset (C:=mem) 0 fresh_iter =
    (Panicked (PanicString "Init() not called"), fresh_iter)
  ∧ iterValue_Value (C:=mem) 0 fresh_iter =
      (Ret (VFunc iter_ekv (FnIter 0)), fresh_iter)
  ∧ call (C:=mem) (VFunc iter_ekv (FnIter 0)) [VPtr 10; VPtr 11; VPtr 12] fresh_iter =
      (Panicked (PanicString "Init() not called"), fresh_iter).
Proof.
  apply (iterValue_misuse_before_Init (C:=mem) fresh_iter 0
           (mkIterValue (C:=mem) (Some three) (VFunc iter_ekv (FnIter 0))
              [TEventTime; TInt; TString] None)
           iter_ekv [VPtr 10; VPtr 11; VPtr 12]).
  - reflexivity.
  - reflexivity.
  - reflexivity.
Defined.

(** C5: two records are stored under the key "a", and the callable that a
    lookup of "a" returns reports the end of the stream at its first call.
    The adapter was asked for the [reflect.Value] of a [reflect.Value], not
    for "a", and has nothing under that. *)
Lemma multiMapValue_invoke_misses_stored_key :
  let r := multiMapValue_invoke (C:=mem) 0 [VString "a"] keyed_multimap in
  mem_stored (table keyed) 0 (VString "a") = [rec7; rec8] ∧
  r.1 = Ret [VFunc iter_ekv (FnIter 1)] ∧
  heap r.2 !! 1 =
    Some (ObjIter (mkIterValue (C:=mem)
                     (Some (mkMemReStream
                              (mem_stored (table keyed) 0
                                 (VReflect (VReflect (VString "a"))))
                              None None None))
                     (VFunc iter_ekv (FnIter 1)) [TEventTime; TInt; TString]
                     (Some 0))) ∧
  mem_stored (table keyed) 0 (VReflect (VReflect (VString "a"))) = [] ∧
  (observe (C:=mem) (VFunc iter_ekv (FnIter 1)) [10; 11; 12] r.2).1 = Ret None.
Proof. repeat split; reflexivity. Qed.

(** C6 on [three]: one step of the first pass, then the second pass is
    started and the two are stepped in turns. *)
Lemma reIterValue_independent_passes_witness :
  ∃ f1 st1 st2 f2 st3 st4,
    reIterValue_invoke (C:=mem) 0 [] fresh_reiter = (Ret [f1], st1) ∧
    pulls 1 f1 [10; 11; 12] st1 =
      (Ret [Some [Some (VTime 1000); Some (VInt 7); Some (VString "x")]], st2) ∧
    reIterValue_invoke 0 [] st2 = (Ret [f2], st3) ∧
    f1 ≠ f2 ∧
    run_sched [true; false; false; true; false; true; false]
        f1 [10; 11; 12] f2 [20; 21; 22] st3 =
      (Ret ([Some [Some (VTime 2000); Some (VInt 8); Some (VString "y")];
             Some [Some (VTime 3000); Some (VInt 9); Some (VString "z")];
             None],
            [Some [Some (VTime 1000); Some (VInt 7); Some (VString "x")];
             Some [Some (VTime 2000); Some (VInt 8); Some (VString "y")];
             Some [Some (VTime 3000); Some (VInt 9); Some (VString "z")];
             None]), st4).
Proof.
  apply (reIterValue_independent_passes (C:=mem) fresh_reiter 0
           (mkReIterValue (C:=mem) reiter_ekv (Some three)
              (VFunc reiter_ekv (FnReIter 0)))
           three iter_ekv [TEventTime; TInt; TString] [rec7; rec8; rec9] 1
           [true; false; false; true; false; true; false]
           [10; 11; 12] [20; 21; 22]).
  - reflexivity.
  - reflexivity.
  - reflexivity.
  - reflexivity.
  - reflexivity.
  - apply mem_independent.
  - apply mem_restartable.
  - typed.
  - exact (bool_decide_unpack (NoDup [10; 11; 12]) I).
  - typed.
  - exact (bool_decide_unpack (NoDup [20; 21; 22]) I).
  - typed.
  - cbn. lia.
  - reflexivity.
  - reflexivity.
Defined.

(** C7 with the constructors 5 and then 6 for one type and a later
    registration for another. *)
Lemma RegisterInput_last_wins_witness :
  ∃ st',
    (RegisterInput (C:=mem) iter_k 5 ;;; RegisterInput (C:=mem) iter_k 6 ;;;
     register_all (C:=mem) [(iter_ekv, 9)]) mem_empty = (Ret tt, st') ∧
    inputs st' !! iter_k = Some 6 ∧
    IsInputRegistered iter_k st' = (Ret true, st') ∧
    makeIter (C:=mem) iter_k (Some three) st' = (Ret (RICustom (C:=mem) 6), st').
Proof.
  destruct (RegisterInput_last_wins (C:=mem) mem_empty iter_k 5 6 [(iter_ekv, 9)]
              (Some three)) as (st' & H1 & H2 & H3 & H4).
  { repeat constructor. discriminate. }
  exists st'. split; [exact H1|]. split; [exact H2|]. split; [exact H3|].
  rewrite H4. by destruct st'.
Defined.

(** C8 on the fourth call over [three]; the variables keep what the third
    call wrote. *)
Lemma iterValue_invoke_eof_untouched_witness :
  ∃ st',
    iterValue_invoke (C:=mem) 0 [VPtr 10; VPtr 11; VPtr 12] exhausted_iter =
      (Ret [VBool false], st') ∧
    vars st' = vars exhausted_iter ∧ heap st' = heap exhausted_iter ∧
    inputs st' = inputs exhausted_iter ∧
    world st' = [mkMemCursor [] None None].
Proof.
  apply (iterValue_invoke_eof_untouched (C:=mem) exhausted_iter 0
           (mkIterValue (C:=mem) (Some three) (VFunc iter_ekv (FnIter 0))
              [TEventTime; TInt; TString] (Some 0))
           0 None [mkMemCursor [] None None] [VPtr 10; VPtr 11; VPtr 12]).
  - reflexivity.
  - reflexivity.
  - reflexivity.
Defined.

(** C9 on an adapter whose lookup fails: the failure is not what the
    callable ends with. *)
Lemma multiMapValue_invoke_discards_adapter_error_witness :
  multiMapValue_invoke (C:=mem) 0 [VString "a"] failing_multimap =
    (t <- out0 multimap_ekv ;;
     iter <- makeIter t None ;;
     Init iter ;;;
     f <- Value iter ;;
     ret [f]) failing_multimap
  ∧ ∀ err, (multiMapValue_invoke (C:=mem) 0 [VString "a"] failing_multimap).1
           ≠ Panicked (PanicError err).
Proof.
  apply (multiMapValue_invoke_discards_adapter_error (C:=mem) failing_multimap 0
           (mkMultiMapValue (C:=mem) multimap_ekv TString tt failing tt 0
              (VFunc multimap_ekv (FnMultiMap 0)))
           (VString "a") None (Some (ErrorString "state unavailable")) []).
  - reflexivity.
  - reflexivity.
Defined.

(** C10 on a cursor whose close fails. *)
Lemma iterValue_Reset_close_error_witness :
  ∃ st',
    iterValue_Reset (C:=mem) 0 stuck_iter =
      (Ret (Some (ErrorString "close failed")), st') ∧
    world st' = world stuck_iter ∧
    heap st' !! 0 =
      Some (ObjIter (mkIterValue (C:=mem) (Some stuck) (VFunc iter_k (FnIter 0))
                       [TInt] (Some 0))).
Proof.
  apply (iterValue_Reset_close_error (C:=mem) stuck_iter 0
           (mkIterValue (C:=mem) (Some stuck) (VFunc iter_k (FnIter 0)) [TInt] (Some 0))
           0 (Some (ErrorString "close failed")) (world stuck_iter)).
  - reflexivity.
  - reflexivity.
  - reflexivity.
Defined.

(** ** The further properties at concrete inputs *)

Lemma mem_serves_apart tb :
  serves_apart (C:=mem) (mkMemAdapter tb None) (mem_stored tb).
Proof.
  intros ctx rd win key wd. eexists _, _, _, _, _. split; [done|]. split; [done|].
  split.
  - apply (mem_delivers _ _ _ None). cbn. by rewrite lookup_app_r, Nat.sub_diag by lia.
  - intros c' l' Hd. pose proof (mem_delivers_known _ _ _ Hd) as Hk.
    apply lookup_lt_is_Some in Hk. split; [cbn in *; lia|].
    revert Hd. apply mem_delivers_local. by apply lookup_app_l.
Qed.

(** X1 on the first call over [three], for a variable that is not an
    out-parameter. *)
Lemma iterValue_invoke_writes_only_out_params_witness :
  (VPtr 13 ∉ [VPtr 10; VPtr 11; VPtr 12]) ∧
  vars (iterValue_invoke (C:=mem) 0 [VPtr 10; VPtr 11; VPtr 12] open_iter).2 !! 13 =
    vars open_iter !! 13.
Proof.
  assert (VPtr 13 ∉ [VPtr 10; VPtr 11; VPtr 12]) as Hn.
  { intros H. repeat (apply elem_of_cons in H as [[=]|H]). by apply elem_of_nil in H. }
  split; [exact Hn|].
  exact (iterValue_invoke_writes_only_out_params (C:=mem) open_iter 0
           [VPtr 10; VPtr 11; VPtr 12] 13 Hn).
Defined.

(** X2 on a call with too few arguments, which panics after its read. *)
Lemma iterValue_invoke_reads_once_witness :
  (iterValue_invoke (C:=mem) 0 [VPtr 10] open_iter).1 = Panicked index_out_of_range ∧
  world (iterValue_invoke (C:=mem) 0 [VPtr 10] open_iter).2 =
    [mkMemCursor [rec8; rec9] None None] ∧
  heap (iterValue_invoke (C:=mem) 0 [VPtr 10] open_iter).2 = heap open_iter ∧
  inputs (iterValue_invoke (C:=mem) 0 [VPtr 10] open_iter).2 = inputs open_iter.
Proof.
  split; [reflexivity|].
  apply (iterValue_invoke_reads_once (C:=mem) open_iter 0
           (mkIterValue (C:=mem) (Some three) (VFunc iter_ekv (FnIter 0))
              [TEventTime; TInt; TString] (Some 0))
           0 [VPtr 10]).
  - reflexivity.
  - reflexivity.
Defined.

(** X3 on a timestamp slot and a key slot, for two records that differ in
    the secondary value only. *)
Lemma fill_secondary_unused_witness :
  fill (C:=mem) (Some rec7) [VPtr 10; VPtr 11] 0 true [TEventTime; TInt] mem_empty =
  fill (C:=mem) (Some (mkFullValue (VInt 7) VNil 1000)) [VPtr 10; VPtr 11] 0 true
    [TEventTime; TInt] mem_empty.
Proof.
  apply (fill_secondary_unused (C:=mem) [TEventTime; TInt] rec7
           (mkFullValue (VInt 7) VNil 1000) [VPtr 10; VPtr 11] 0 true mem_empty).
  - reflexivity.
  - reflexivity.
  - vm_compute. lia.
Defined.

(** X4 on a stream that does not open. *)
Lemma iterValue_Init_open_error_witness :
  iterValue_Init (C:=mem) 0 unopened_iter =
    (Ret (Some (ErrorString "no route")), unopened_iter) ∧
  (cur (mkIterValue (C:=mem) (Some unopenable) (VFunc iter_k (FnIter 0)) [TInt] None)
     = None →
   iterValue_invoke (C:=mem) 0 [VPtr 10] unopened_iter =
     (Panicked (PanicString "Init() not called"), unopened_iter)).
Proof.
  apply (iterValue_Init_open_error (C:=mem) unopened_iter 0
           (mkIterValue (C:=mem) (Some unopenable) (VFunc iter_k (FnIter 0)) [TInt] None)
           unopenable None (ErrorString "no route") [] [VPtr 10]).
  - reflexivity.
  - reflexivity.
  - reflexivity.
Defined.

(** X5 on an iterator over [three] that is initialised already. *)
Lemma iterValue_Init_again_witness :
  ∃ st1 st2,
    iterValue_Init (C:=mem) 0 open_iter = (Ret None, st1) ∧
    world st1 = [mkMemCursor [rec7; rec8; rec9] None None;
                 mkMemCursor [rec7; rec8; rec9] None None] ∧
    heap st1 =
      [ObjIter (mkIterValue (C:=mem) (Some three) (VFunc iter_ekv (FnIter 0))
                  [TEventTime; TInt; TString] (Some 1))] ∧
    pulls 4 (VFunc iter_ekv (FnIter 0)) [10; 11; 12] st1 =
      (Ret [Some [Some (VTime 1000); Some (VInt 7); Some (VString "x")];
            Some [Some (VTime 2000); Some (VInt 8); Some (VString "y")];
            Some [Some (VTime 3000); Some (VInt 9); Some (VString "z")];
            None], st2).
Proof.
  apply (iterValue_Init_again (C:=mem) open_iter 0
           (mkIterValue (C:=mem) (Some three) (VFunc iter_ekv (FnIter 0))
              [TEventTime; TInt; TString] (Some 0))
           iter_ekv three 0 1
           [mkMemCursor [rec7; rec8; rec9] None None;
            mkMemCursor [rec7; rec8; rec9] None None]
           [rec7; rec8; rec9] [10; 11; 12]).
  - reflexivity.
  - reflexivity.
  - reflexivity.
  - reflexivity.
  - apply (mem_delivers _ _ _ None). reflexivity.
  - typed.
  - exact (bool_decide_unpack (NoDup [10; 11; 12]) I).
  - typed.
Defined.

(** X6 on an initialised iterator over [three]. *)
Lemma iterValue_Reset_then_misuse_witness :
  ∃ st1,
    iterValue_Reset (C:=mem) 0 open_iter = (Ret None, st1) ∧
    heap st1 !! 0 =
      Some (ObjIter (mkIterValue (C:=mem) (Some three) (VFunc iter_ekv (FnIter 0))
                       [TEventTime; TInt; TString] None)) ∧
    iterValue_Reset 0 st1 = (Panicked (PanicString "Init() not called"), st1) ∧
    iterValue_invoke 0 [VPtr 10; VPtr 11; VPtr 12] st1 =
      (Panicked (PanicString "Init() not called"), st1).
Proof.
  apply (iterValue_Reset_then_misuse (C:=mem) open_iter 0
           (mkIterValue (C:=mem) (Some three) (VFunc iter_ekv (FnIter 0))
              [TEventTime; TInt; TString] (Some 0))
           0 (world open_iter) [VPtr 10; VPtr 11; VPtr 12]).
  - reflexivity.
  - reflexivity.
  - reflexivity.
Defined.

(** X7 on [three], with two steps in the first pass. *)
Lemma iterValue_reuse_after_Reset_witness :
  ∃ st',
    (e1 <- iterValue_Init (C:=mem) 0 ;;
     first <- pulls 2 (VFunc iter_ekv (FnIter 0)) [10; 11; 12] ;;
     e2 <- iterValue_Reset 0 ;;
     e3 <- iterValue_Init 0 ;;
     second <- pulls 4 (VFunc iter_ekv (FnIter 0)) [10; 11; 12] ;;
     ret (e1, first, e2, e3, second)) fresh_iter =
      (Ret (None,
            [Some [Some (VTime 1000); Some (VInt 7); Some (VString "x")];
             Some [Some (VTime 2000); Some (VInt 8); Some (VString "y")]],
            None, None,
            [Some [Some (VTime 1000); Some (VInt 7); Some (VString "x")];
             Some [Some (VTime 2000); Some (VInt 8); Some (VString "y")];
             Some [Some (VTime 3000); Some (VInt 9); Some (VString "z")];
             None]), st').
Proof.
  apply (iterValue_reuse_after_Reset (C:=mem) fresh_iter 0
           (mkIterValue (C:=mem) (Some three) (VFunc iter_ekv (FnIter 0))
              [TEventTime; TInt; TString] None)
           iter_ekv three 0 [mkMemCursor [rec7; rec8; rec9] None None]
           [rec7; rec8; rec9] 2
           [mkMemCursor [rec9] None None] 1
           [mkMemCursor [rec9] None None; mkMemCursor [rec7; rec8; rec9] None None]
           [10; 11; 12]).
  - reflexivity.
  - reflexivity.
  - reflexivity.
  - apply (mem_delivers _ _ _ None). reflexivity.
  - cbn. lia.
  - reflexivity.
  - reflexivity.
  - apply (mem_delivers _ _ _ None). reflexivity.
  - typed.
  - exact (bool_decide_unpack (NoDup [10; 11; 12]) I).
  - typed.
Defined.

(** X10 on a factory over a stream that does not open. *)
Lemma reIterValue_invoke_open_error_witness :
  ∃ st1,
    reIterValue_invoke (C:=mem) 0 [] unopenable_reiter =
      (Ret [VFunc iter_ekv (FnIter 1)], st1) ∧
    call (VFunc iter_ekv (FnIter 1)) [VPtr 10; VPtr 11; VPtr 12] st1 =
      (Panicked (PanicString "Init() not called"), st1).
Proof.
  apply (reIterValue_invoke_open_error (C:=mem) unopenable_reiter 0
           (mkReIterValue (C:=mem) reiter_ekv (Some unopenable)
              (VFunc reiter_ekv (FnReIter 0)))
           unopenable iter_ekv [TEventTime; TInt; TString] None
           (ErrorString "no route") [] [] [VPtr 10; VPtr 11; VPtr 12]).
  - reflexivity.
  - reflexivity.
  - reflexivity.
  - reflexivity.
  - reflexivity.
  - reflexivity.
Defined.

(** X11 on an adapter whose lookup fails. *)
Lemma multiMapValue_invoke_nil_stream_witness :
  multiMapValue_invoke (C:=mem) 0 [VString "a"] failing_multimap =
    (Panicked nil_dereference,
     set_heap (C:=mem)
       (heap failing_multimap ++
          [ObjIter (mkIterValue (C:=mem) None (VFunc iter_ekv (FnIter 1))
                      [TEventTime; TInt; TString] None)])
       failing_multimap).
Proof.
  apply (multiMapValue_invoke_nil_stream (C:=mem) failing_multimap 0
           (mkMultiMapValue (C:=mem) multimap_ekv TString tt failing tt 0
              (VFunc multimap_ekv (FnMultiMap 0)))
           iter_ekv [TEventTime; TInt; TString] (VString "a")
           (Some (ErrorString "state unavailable")) []).
  - reflexivity.
  - reflexivity.
  - reflexivity.
  - reflexivity.
  - reflexivity.
Defined.

(** X12 on a call with two keys. *)
Lemma multiMapValue_invoke_wrong_arity_witness :
  multiMapValue_invoke (C:=mem) 0 [VString "a"; VString "b"] keyed_multimap =
    (Panicked (PanicfArgs "wanted one key value, got " [VString "a"; VString "b"]),
     keyed_multimap).
Proof.
  apply (multiMapValue_invoke_wrong_arity (C:=mem) keyed_multimap 0
           (mkMultiMapValue (C:=mem) multimap_ekv TString tt keyed tt 0
              (VFunc multimap_ekv (FnMultiMap 0)))
           [VString "a"; VString "b"]).
  - reflexivity.
  - cbn. lia.
Defined.

(** X13 on a factory over [three]. *)
Lemma makeReIter_pass_witness :
  ∃ st',
    (r <- makeReIter (C:=mem) reiter_ekv (Some three) ;;
     e1 <- Init r ;;
     f <- Value r ;;
     g <- call f [] ;;
     e2 <- Reset r ;;
     obs <- pulls 4 (default VNil (head g)) [10; 11; 12] ;;
     ret (e1, e2, obs)) mem_empty =
      (Ret (None, None,
            [Some [Some (VTime 1000); Some (VInt 7); Some (VString "x")];
             Some [Some (VTime 2000); Some (VInt 8); Some (VString "y")];
             Some [Some (VTime 3000); Some (VInt 9); Some (VString "z")];
             None]), st').
Proof.
  apply (makeReIter_pass (C:=mem) mem_empty reiter_ekv iter_ekv
           [TEventTime; TInt; TString] three [rec7; rec8; rec9] [10; 11; 12]).
  - reflexivity.
  - reflexivity.
  - reflexivity.
  - reflexivity.
  - apply mem_restartable.
  - typed.
  - exact (bool_decide_unpack (NoDup [10; 11; 12]) I).
  - typed.
Defined.

(** X14 on the key "a", for which the adapter has two records under the
    key it is asked for, and the key "b", for which it has none. *)
Lemma makeMultiMap_lookups_apart_witness :
  ∃ st',
    (r <- makeMultiMap (C:=mem) tt multimap_ekv keyed_as_asked tt 0 ;;
     f <- Value r ;;
     g1 <- call f [VString "a"] ;;
     g2 <- call f [VString "b"] ;;
     run_sched [true; false; true; true]
       (default VNil (head g1)) [10; 11; 12]
       (default VNil (head g2)) [20; 21; 22]) mem_empty =
      (Ret ([Some [Some (VTime 1000); Some (VInt 7); Some (VString "x")];
             Some [Some (VTime 2000); Some (VInt 8); Some (VString "y")];
             None],
            [None]), st').
Proof.
  apply (makeMultiMap_lookups_apart (C:=mem) mem_empty tt multimap_ekv TString
           [TEventTime; TInt; TString] iter_ekv [TEventTime; TInt; TString]
           keyed_as_asked tt 0 (mem_stored (table keyed_as_asked))
           (VString "a") (VString "b")
           [true; false; true; true] [10; 11; 12] [20; 21; 22]).
  - reflexivity.
  - reflexivity.
  - reflexivity.
  - reflexivity.
  - apply mem_independent.
  - apply mem_serves_apart.
  - typed.
  - typed.
  - exact (bool_decide_unpack (NoDup [10; 11; 12]) I).
  - typed.
  - exact (bool_decide_unpack (NoDup [20; 21; 22]) I).
  - typed.
  - reflexivity.
  - reflexivity.
Defined.

